(** * Weighted doubly robust learning (wdrl_sim.ipynb): a shallow embedding

    The notebook's estimation engine is embedded as Rocq functions:
    the enumeration of treatment combinations (the cell defining [C]),
    [calculate_propensity_scores], [calculate_doubly_robust_scores],
    [compute_weighted_dr_scores] and [calculate_ate].

    Conventions.
    - Python strings are [string]; lists are [list]; the dictionaries
      [treatment_prob] and [results] are [gmap string Q].
    - Python floats are idealised as exact rationals [Q]; equalities that
      need arithmetic are stated with [==].  What is proved of the values
      is therefore proved in exact arithmetic; the module [Binary64]
      replays the last step of [calculate_ate] in IEEE 754 binary64 to
      show where rounding separates the program from the exact model.
    - A raised exception is a value [Raise e] of the [result] type and is
      threaded through the calls by [bind].
    - scikit-learn's estimators are not part of the notebook: they are
      parameters ([Classifier], [Regressor]) of the functions that call
      them. *)

From Stdlib Require Import QArith Lqa.
From Stdlib Require Import Floats.PrimFloat Numbers.Cyclic.Int63.Uint63.
From stdpp Require Import gmap strings list.

(** ** Combination enumeration *)

Module Enumeration.

(** [itertools.combinations(iterable, r)]: the [r]-element subsequences of
    the input, in lexicographic order of their positions. *)
Fixpoint combinations {A} (l : list A) (r : nat) {struct l} : list (list A) :=
  match r with
  | O => [[]]
  | S r' =>
      match l with
      | [] => []
      | x :: l' => ((x ::.) <$> combinations l' r') ++ combinations l' r
      end
  end.

(** [chain.from_iterable(combinations(TREATMENTS, r)
                         for r in range(len(TREATMENTS) + 1))] *)
Definition chain_combinations {A} (TREATMENTS : list A) : list (list A) :=
  mjoin (combinations TREATMENTS <$> seq 0 (S (length TREATMENTS))).

(** [''.join(i)] followed by ['0' if i == '' else i]: the code of one
    combination. *)
Definition join (i : list string) : string := String.concat "" i.

Definition code (i : list string) : string :=
  if decide (join i = "") then "0" else join i.

(** The list [C] of the notebook. *)
Definition all_combinations (TREATMENTS : list string) : list string :=
  join <$> chain_combinations TREATMENTS.

Definition C (TREATMENTS : list string) : list string :=
  (λ i, if decide (i = "") then "0" else i) <$> all_combinations TREATMENTS.

(** Python's [sub in s] on strings: [sub] occurs in [s] as a substring. *)
Fixpoint py_in (sub s : string) : bool :=
  String.prefix sub s ||
  match s with
  | EmptyString => false
  | String _ s' => py_in sub s'
  end.

(** [W_k = [comb for comb in C if treatment in comb]] and
    [S__k = [comb for comb in C if treatment not in comb]]. *)
Definition W_k (C : list string) (treatment : string) : list string :=
  filter (λ comb, py_in treatment comb = true) C.

Definition S__k (C : list string) (treatment : string) : list string :=
  filter (λ comb, py_in treatment comb = false) C.

(** The pairs visited by [for w_k, s__k in zip(W_k, S__k)]. *)
Definition matched_pairs (C : list string) (treatment : string)
  : list (string * string) :=
  zip (W_k C treatment) (S__k C treatment).

End Enumeration.

(** ** Exceptions and fallible computations *)

(** The first three are the Python exceptions that the notebook's code
    paths can raise.  The last two are the error names of the
    specification's taxonomy; no function below constructs them. *)
Inductive exn : Set :=
  | ValueError
  | KeyError
  | ZeroDivisionError
  | InsufficientDataError
  | DegenerateWeightError.

Inductive result (A : Type) : Type :=
  | Ok (a : A)
  | Raise (e : exn).
Arguments Ok {A} a.
Arguments Raise {A} e.

#[export] Instance result_ret : MRet result := λ A a, Ok a.
#[export] Instance result_bind : MBind result :=
  λ A B f m, match m with Ok a => f a | Raise e => Raise e end.
#[export] Instance result_fmap : FMap result :=
  λ A B f m, match m with Ok a => Ok (f a) | Raise e => Raise e end.

Definition raises {A} (m : result A) : Prop := ∃ e, m = Raise e.
Definition returns {A} (m : result A) : Prop := ∃ a, m = Ok a.

(** ** Vectors, matrices and Python numbers *)

Abbreviation vector := (list Q).
Abbreviation matrix := (list (list Q)).

(** numpy's elementwise binary operation on two arrays: the shapes must
    agree, otherwise numpy raises [ValueError].  (numpy also broadcasts an
    operand of length 1; the engine never builds one, as every array it
    combines has one entry per unit of the same frame.) *)
Definition np_zip (f : Q → Q → Q) (a b : vector) : result vector :=
  if decide (length a = length b) then Ok (zip_with f a b)
  else Raise ValueError.

(** Boolean-mask selection [a[mask]]. *)
Definition select {A} (mask : list bool) (a : list A) : list A :=
  (filter (λ p, p.1 = true) (zip mask a)).*2.

Definition np_sum (v : vector) : Q := foldr Qplus 0%Q v.

(** [np.mean(v)].  On an empty array numpy returns nan; the rational model
    has no such value and [Qdiv] by zero yields 0 there. *)
Definition np_mean (v : vector) : Q :=
  (np_sum v / inject_Z (Z.of_nat (length v)))%Q.

(** A value that is either a Python number or a pandas Series, as the
    accumulator of the built-in [sum] is in [compute_weighted_dr_scores]. *)
Inductive pyval : Type :=
  | Scalar (q : Q)
  | Series (v : vector).

Definition py_add (a b : pyval) : pyval :=
  match a, b with
  | Scalar x, Scalar y => Scalar (x + y)%Q
  | Scalar x, Series v => Series ((λ e, x + e)%Q <$> v)
  | Series u, Scalar y => Series ((λ e, e + y)%Q <$> u)
  | Series u, Series v => Series (zip_with Qplus u v)
  end.

(** The built-in [sum(iterable)]: a left fold of [+] starting from the
    integer 0. *)
Definition py_sum (terms : list pyval) : pyval :=
  fold_left py_add terms (Scalar 0%Q).

(** [a / b].  Between two Python numbers a zero divisor raises
    [ZeroDivisionError].  A Series divided by a number never raises: on a
    zero divisor pandas fills the entries with inf or nan, values that the
    rational model does not represent (the entries are then meaningless,
    only the absence of an exception is modelled). *)
Definition py_truediv (a b : pyval) : result pyval :=
  match a, b with
  | Scalar x, Scalar y =>
      if Qeq_bool y 0 then Raise ZeroDivisionError else Ok (Scalar (x / y)%Q)
  | Series u, Scalar y => Ok (Series ((λ e, e / y)%Q <$> u))
  | Scalar x, Series v => Ok (Series ((λ e, x / e)%Q <$> v))
  | Series u, Series v => Ok (Series (zip_with Qdiv u v))
  end.

(** An estimator's [fit] needs an array target; a bare number is rejected
    with [ValueError]. *)
Definition as_array (a : pyval) : result vector :=
  match a with
  | Series v => Ok v
  | Scalar _ => Raise ValueError
  end.

(** ** Insertion-ordered dictionaries (dict comprehensions) *)

Fixpoint dict_set {V} (k : string) (v : V) (d : list (string * V))
  : list (string * V) :=
  match d with
  | [] => [(k, v)]
  | (k', v') :: d' =>
      if decide (k = k') then (k, v) :: d' else (k', v') :: dict_set k v d'
  end.

(** [{k: v for k, v in items}] *)
Definition dict_of {V} (items : list (string * V)) : list (string * V) :=
  fold_left (λ d kv, dict_set kv.1 kv.2 d) items [].

Fixpoint dict_get {V} (k : string) (d : list (string * V)) : result V :=
  match d with
  | [] => Raise KeyError
  | (k', v') :: d' => if decide (k = k') then Ok v' else dict_get k d'
  end.

(** ** The training frame *)

(** One unit: its numeric cells, aligned with the frame's column names
    (the covariates, the indicator columns [TA], [TB], ... and [y]), and
    its combination label, the column [t]. *)
Record Row : Type := mkRow { cells : vector; t : string }.

Record DataFrame : Type :=
  mkFrame { columns : list string; rows : list Row }.

(** Position of a numeric column. *)
Definition column_index (name : string) (df : DataFrame) : option nat :=
  fst <$> list_find (λ c, c = name) (columns df).

(** [df[name]] for a numeric column. *)
Definition column (name : string) (df : DataFrame) : result vector :=
  match column_index name df with
  | Some i => Ok ((λ r, nth i (cells r) 0%Q) <$> rows df)
  | None => Raise KeyError
  end.

(** [df[name] = v]: the column is overwritten in place when it exists and
    appended otherwise. *)
Definition set_column (name : string) (v : vector) (df : DataFrame)
  : DataFrame :=
  match column_index name df with
  | Some i =>
      mkFrame (columns df)
        (zip_with (λ r x, mkRow (<[i := x]> (cells r)) (t r)) (rows df) v)
  | None =>
      mkFrame (columns df ++ [name])
        (zip_with (λ r x, mkRow (cells r ++ [x]) (t r)) (rows df) v)
  end.

(** [df.drop(columns=names)], read as the numeric matrix that the
    estimators receive.  Every use in the notebook drops [t], so the
    remaining cells are all numeric.  A name that is not a column raises
    [KeyError]. *)
Definition drop (names : list string) (df : DataFrame) : result matrix :=
  if decide (Forall (λ c, c = "t" ∨ c ∈ columns df) names)
  then Ok ((λ r, (filter (λ p, p.1 ∉ names) (zip (columns df) (cells r))).*2)
             <$> rows df)
  else Raise KeyError.

(** [df.query('t == @w_k | t == @s__k')] *)
Definition query (w_k s__k : string) (df : DataFrame) : DataFrame :=
  mkFrame (columns df) (filter (λ r, t r = w_k ∨ t r = s__k) (rows df)).

(** [np.where(df['t'] == w_k, 1, 0)] *)
Definition t_indicator (w_k : string) (df : DataFrame) : vector :=
  (λ r, if decide (t r = w_k) then 1%Q else 0%Q) <$> rows df.

(** ** The estimators the notebook plugs in *)

(** A fitted [LinearRegression]: [predict(X) = X @ coef_ + intercept_].
    The product is taken over the columns that the matrix and the
    coefficients share; scikit-learn's [predict] raises [ValueError] on a
    matrix whose number of columns differs from that of [fit]. *)
Record LinearModel : Type := mkLinear { intercept_ : Q; coef_ : vector }.

Definition dot (a b : vector) : Q := np_sum (zip_with Qmult a b).

Definition predict (m : LinearModel) (X : matrix) : vector :=
  (λ row, dot row (coef_ m) + intercept_ m)%Q <$> X.

(** [LinearRegression().fit(X, y)]: which coefficients it returns, and on
    which inputs it raises, is scikit-learn's business. *)
Record Regressor : Type :=
  mkRegressor { lr_fit : matrix → vector → result LinearModel }.

(** [LogisticRegression(penalty=None)]: [fit] and [predict_proba], whose
    rows hold the probabilities of class 0 and of class 1. *)
Record Classifier : Type :=
  mkClassifier {
    clf_model : Type;
    clf_fit : matrix → vector → result clf_model;
    clf_predict_proba : clf_model → matrix → list (Q * Q)
  }.

(** ** The WDRL engine *)

Section Engine.

Variable clf : Classifier.
Variable reg : Regressor.

(** [calculate_propensity_scores(X, T)] *)
Definition calculate_propensity_scores (X : matrix) (T : vector)
  : result vector :=
  model_t ← clf_fit clf X T;
  mret ((clf_predict_proba clf model_t X).*2).

(** The arithmetic of [calculate_doubly_robust_scores] once both outcome
    models have predicted.  numpy's division raises nothing: on a zero
    divisor it yields inf or nan, where [Qdiv] yields 0; the properties of
    the scores are therefore stated for nonzero divisors. *)
Definition doubly_robust_formula (y T ps m0_hat m1_hat : vector)
  : result vector :=
  res1 ← np_zip Qminus y m1_hat;
  num1 ← np_zip Qmult T res1;
  ipw1 ← np_zip Qdiv num1 ps;
  y_dr_1 ← np_zip Qplus m1_hat ipw1;
  res0 ← np_zip Qminus y m0_hat;
  num0 ← np_zip Qmult ((λ e, 1 - e)%Q <$> T) res0;
  ipw0 ← np_zip Qdiv num0 ((λ e, 1 - e)%Q <$> ps);
  y_dr_0 ← np_zip Qplus m0_hat ipw0;
  np_zip Qminus y_dr_1 y_dr_0.

(** [calculate_doubly_robust_scores(X, y, T, ps)] *)
Definition calculate_doubly_robust_scores (X : matrix) (y T ps : vector)
  : result vector :=
  let is0 := (λ e, Qeq_bool e 0) <$> T in
  let is1 := (λ e, Qeq_bool e 1) <$> T in
  m0 ← lr_fit reg (select is0 X) (select is0 y);
  m1 ← lr_fit reg (select is1 X) (select is1 y);
  let m0_hat := predict m0 X in
  let m1_hat := predict m1 X in
  doubly_robust_formula y T ps m0_hat m1_hat.

(** [compute_weighted_dr_scores(dr_scores, treatment_prob)]; the frame
    [dr_scores] is given by its columns in order. *)
Definition valid_weights (dr_scores : list (string * vector))
    (treatment_prob : gmap string Q) : list (string * Q) :=
  dict_of (omap (λ col, (λ w, (col, w)) <$> treatment_prob !! col)
             dr_scores.*1).

Definition compute_weighted_dr_scores (dr_scores : list (string * vector))
    (treatment_prob : gmap string Q) : result pyval :=
  let valid_weights := valid_weights dr_scores treatment_prob in
  terms ← mapM (λ cw, s ← dict_get cw.1 dr_scores;
                      mret (Series ((λ e, e * cw.2)%Q <$> s)))
            valid_weights;
  let weighted_sum := py_sum terms in
  py_truediv weighted_sum (py_sum (Scalar <$> valid_weights.*2)).

(** The body of [for w_k, s__k in zip(W_k, S__k)] in [calculate_ate]. *)
Definition calculate_ate_pair (df_train : DataFrame)
    (treatment_cols : list string) (X : matrix) (w_k s__k : string)
  : result vector :=
  let df_subset := query w_k s__k df_train in
  let df_subset := set_column "t_binary" (t_indicator w_k df_subset) df_subset in
  X_treated ← drop (["y"; "t"; "t_binary"] ++ treatment_cols) df_subset;
  y_treated ← column "y" df_subset;
  T_treated ← column "t_binary" df_subset;
  ps ← calculate_propensity_scores X_treated T_treated;
  dr_scores ← calculate_doubly_robust_scores X_treated y_treated T_treated ps;
  dr_model ← lr_fit reg X_treated dr_scores;
  mret (predict dr_model X).

(** The aggregated scores of one treatment: the pair loop, the frame
    [dr_df] and [compute_weighted_dr_scores]. *)
Definition aggregated_dr_scores (df_train : DataFrame) (C : list string)
    (treatment_prob : gmap string Q) (treatment_cols : list string)
    (X : matrix) (treatment : string) : result vector :=
  let W_k := Enumeration.W_k C treatment in
  let S__k := Enumeration.S__k C treatment in
  y_hat_dr_list ← mapM (λ p, calculate_ate_pair df_train treatment_cols X p.1 p.2)
                    (zip W_k S__k);
  let dr_df := dict_of (zip W_k y_hat_dr_list) in
  aggregated ← compute_weighted_dr_scores dr_df treatment_prob;
  as_array aggregated.

(** The body of [for treatment in treatments]: the value stored in
    [results[treatment]]. *)
Definition calculate_ate_treatment (df_train : DataFrame) (C : list string)
    (treatment_prob : gmap string Q) (treatment_cols : list string)
    (X : matrix) (treatment : string) : result Q :=
  aggregated ← aggregated_dr_scores df_train C treatment_prob treatment_cols
                  X treatment;
  ate_model ← lr_fit reg X aggregated;
  mret (np_mean (predict ate_model X)).

Fixpoint calculate_ate_loop (body : string → result Q)
    (treatments : list string) (results : gmap string Q)
  : result (gmap string Q) :=
  match treatments with
  | [] => Ok results
  | treatment :: rest =>
      ate ← body treatment;
      calculate_ate_loop body rest (<[treatment := ate]> results)
  end.

(** [calculate_ate(df_train, C, treatment_prob, treatments)]; the calls
    to [print] are left out. *)
Definition calculate_ate (df_train : DataFrame) (C : list string)
    (treatment_prob : gmap string Q) (treatments : list string)
  : result (gmap string Q) :=
  let treatment_cols := (λ t, "T" +:+ t) <$> treatments in
  X ← drop (["y"; "t"] ++ treatment_cols) df_train;
  calculate_ate_loop
    (calculate_ate_treatment df_train C treatment_prob treatment_cols X)
    treatments ∅.

End Engine.

(** ** Small concrete estimators and a small training frame

    They instantiate the two estimator parameters so that the engine can
    be run.  [mean_regressor] is the least-squares fit when every
    covariate column is constant (the slope of minimal norm is zero);
    [share_classifier] is the intercept-only maximum-likelihood
    classifier; [threshold_classifier] returns the saturated probabilities
    of a classifier fitted on linearly separable data.  The first two
    follow scikit-learn in rejecting an empty target and a target with a
    single class with [ValueError]. *)

Module Estimators.

Definition two_classes (T : vector) : bool :=
  existsb (λ e, Qeq_bool e 0) T && existsb (λ e, Qeq_bool e 1) T.

Definition mean_regressor : Regressor :=
  mkRegressor (λ X y,
    match y with
    | [] => Raise ValueError
    | _ => Ok (mkLinear (np_mean y) ((λ _, 0%Q) <$> default [] (head X)))
    end).

Definition share_classifier : Classifier :=
  mkClassifier Q
    (λ X T, if two_classes T then Ok (np_mean T) else Raise ValueError)
    (λ p X, (λ _, (1 - p, p)%Q) <$> X).


Definition unit_row (x1 ta tb y : Z) (label : string) : Row :=
  mkRow [inject_Z x1; inject_Z ta; inject_Z tb; inject_Z y] label.

(** Eight units, two of each combination of the treatments A and B, with
    one covariate that is zero throughout. *)
Definition df_small : DataFrame :=
  mkFrame ["X1"; "TA"; "TB"; "y"]
    [ unit_row 0 0 0 1 "0"; unit_row 0 0 0 3 "0";
      unit_row 0 1 0 4 "A"; unit_row 0 1 0 6 "A";
      unit_row 0 0 1 0 "B"; unit_row 0 0 1 2 "B";
      unit_row 0 1 1 5 "AB"; unit_row 0 1 1 3 "AB" ].

(** [df['t'].value_counts(normalize=True).to_dict()] on [df_small]. *)
Definition prob_small : gmap string Q :=
  list_to_map [("0", 1 # 4); ("A", 1 # 4); ("B", 1 # 4); ("AB", 1 # 4)].

(** A table that knows only the combinations ["0"] and ["A"]. *)
Definition prob_partial : gmap string Q :=
  list_to_map [("0", 1 # 2); ("A", 1 # 2)].

(** The covariate matrix of [df_small]. *)
Definition X_small : matrix := replicate 8 [0%Q].

End Estimators.


(** ** Predicates used to state the properties *)

(** The combination [c] with the treatment [k] taken out. *)
Definition without {A} `{!EqDecision A} (k : A) (c : list A) : list A :=
  filter (λ x, x ≠ k) c.

(** A label made of one character. *)
Definition single_char (s : string) : Prop := String.length s = 1.

#[global] Instance single_char_dec s : Decision (single_char s).
Proof. unfold single_char. apply _. Defined.

(** The labels for which the string codes are unambiguous: distinct
    single characters, none of them the no-treatment code ["0"]. *)
Definition plain_labels (TREATMENTS : list string) : Prop :=
  NoDup TREATMENTS ∧ Forall single_char TREATMENTS ∧ "0" ∉ TREATMENTS.

#[global] Instance plain_labels_dec TREATMENTS :
  Decision (plain_labels TREATMENTS).
Proof. unfold plain_labels. apply _. Defined.

(** What the pairing property says of the treatment [k] of the label list
    [TREATMENTS]: position by position each with-[k] code meets the code
    of the same combination without [k]; the two lists have the same
    length and are the two projections of the pairs; no code occurs twice
    in them; together they are the list [C], which holds the code of
    every sub-combination of the label list. *)
Definition pairing_ok (TREATMENTS : list string) (k : string) : Prop :=
  let C := Enumeration.C TREATMENTS in
  let with_k :=
    filter (λ c, k ∈ c) (Enumeration.chain_combinations TREATMENTS) in
  Enumeration.W_k C k = Enumeration.code <$> with_k
  ∧ Enumeration.matched_pairs C k
    = (λ c, (Enumeration.code c, Enumeration.code (without k c))) <$> with_k
  ∧ length (Enumeration.W_k C k) = length (Enumeration.S__k C k)
  ∧ (Enumeration.matched_pairs C k).*1 = Enumeration.W_k C k
  ∧ (Enumeration.matched_pairs C k).*2 = Enumeration.S__k C k
  ∧ NoDup (Enumeration.W_k C k ++ Enumeration.S__k C k)
  ∧ Enumeration.W_k C k ++ Enumeration.S__k C k ≡ₚ C
  ∧ (∀ c, c `sublist_of` TREATMENTS → Enumeration.code c ∈ C).

(** The columns of [dr_scores] whose name is a key of the table. *)
Definition present_columns (dr_scores : list (string * vector))
    (treatment_prob : gmap string Q) : list (string * vector) :=
  filter (λ cs, is_Some (treatment_prob !! cs.1)) dr_scores.

(** The weight [P(w)] that the table gives the column [cs]. *)
Definition weight_of (treatment_prob : gmap string Q) (cs : string * vector)
  : Q :=
  default 0%Q (treatment_prob !! cs.1).

(** The sum of the weights [P(w)] over the columns present in the table. *)
Definition weight_total (dr_scores : list (string * vector))
    (treatment_prob : gmap string Q) : Q :=
  np_sum (weight_of treatment_prob
            <$> present_columns dr_scores treatment_prob).

(** The weighted score of unit [i] as the specification writes it: the sum
    of [projected_dr_score[w] * P(w)] over the columns present in the
    table, divided by the sum of those [P(w)]. *)
Definition weighted_score (dr_scores : list (string * vector))
    (treatment_prob : gmap string Q) (i : nat) : Q :=
  (np_sum ((λ cs, default 0 (cs.2 !! i) * weight_of treatment_prob cs)
             <$> present_columns dr_scores treatment_prob)
   / weight_total dr_scores treatment_prob)%Q.

(** Every row of the frame has one cell per numeric column. *)
Definition frame_ok (df : DataFrame) : Prop :=
  Forall (λ r, length (cells r) = length (columns df)) (rows df).

(** The units of the frame whose combination is [label]: one arm of a
    matched pair. *)
Definition arm (label : string) (df : DataFrame) : list Row :=
  filter (λ r, t r = label) (rows df).


(** *** Fitted values, sums and means, written out

    The sum of the entries of an array, the linear combination
    [coef_1 * x_1 + ... + coef_p * x_p], the fitted value of a unit and
    the covariates of a unit are written out here by direct recursion,
    independently of [np_sum], [dot], [predict] and [drop]; the
    properties of [calculate_ate] compare the engine with them. *)

Fixpoint total (v : vector) : Q :=
  match v with
  | [] => 0
  | x :: v' => x + total v'
  end%Q.

Fixpoint linear_combination (coef row : vector) {struct row} : Q :=
  match row with
  | [] => 0
  | x :: row' =>
      match coef with
      | [] => 0
      | c :: coef' => c * x + linear_combination coef' row'
      end
  end%Q.

(** The fitted value of the linear model [m] for a unit with the
    covariates [row]. *)
Definition fitted_value (m : LinearModel) (row : vector) : Q :=
  (intercept_ m + linear_combination (coef_ m) row)%Q.

(** The cells of a unit that belong to a column not named in [names]. *)
Fixpoint covariates_of (names columns : list string) (cells : vector)
  : vector :=
  match columns, cells with
  | c :: columns', x :: cells' =>
      if decide (c ∈ names) then covariates_of names columns' cells'
      else x :: covariates_of names columns' cells'
  | _, _ => []
  end.

(** The covariate matrix of the whole frame: one row per unit, in the
    order of the frame. *)
Definition covariate_matrix (names : list string) (df : DataFrame) : matrix :=
  (λ r, covariates_of names (columns df) (cells r)) <$> rows df.

(** The sum of squared errors of the linear model [m] on the covariates
    [X] and the targets [y]. *)
Definition sse (m : LinearModel) (X : matrix) (y : vector) : Q :=
  total (zip_with (λ row target, (target - fitted_value m row)
                                 * (target - fitted_value m row))%Q X y).

(** [m] is an ordinary least-squares fit with an intercept of [y] on [X]:
    no intercept and coefficients have a smaller sum of squared errors. *)
Definition least_squares_fit (m : LinearModel) (X : matrix) (y : vector)
  : Prop :=
  ∀ m', (sse m X y <= sse m' X y)%Q.

(** ** The data preparation cells *)

Module Preparation.

(** [row[name]] on one row of the frame, a Series indexed by the column
    names; a missing name raises [KeyError]. *)
Definition getitem (name : string) (row : gmap string Q) : result Q :=
  match row !! name with
  | Some v => Ok v
  | None => Raise KeyError
  end.

(** [combine_treatments(row)] *)
Definition combine_treatments (row : gmap string Q) : result string :=
  let treatments := [] in
  TA ← getitem "TA" row;
  let treatments := treatments ++ (if Qeq_bool TA 1 then ["A"] else []) in
  TB ← getitem "TB" row;
  let treatments := treatments ++ (if Qeq_bool TB 1 then ["B"] else []) in
  TC ← getitem "TC" row;
  let treatments := treatments ++ (if Qeq_bool TC 1 then ["C"] else []) in
  mret (match treatments with
        | [] => "0"
        | _ => Enumeration.join treatments
        end).

(** One row of the frame as the Series that [df.apply(f, axis=1)] hands
    to [f]. *)
Definition row_series (columns : list string) (r : Row) : gmap string Q :=
  list_to_map (zip columns (cells r)).

(** [df['t'] = df.apply(combine_treatments, axis=1)], for a frame with at
    least one row: the function is called on every row in turn.  (On a
    frame without rows pandas does not proceed row by row and the
    statement raises [ValueError].) *)
Definition label_rows (df : DataFrame) : result DataFrame :=
  labelled ← mapM (λ r, label ← combine_treatments (row_series (columns df) r);
                        mret (mkRow (cells r) label))
                (rows df);
  mret (mkFrame (columns df) labelled).

(** [Series.value_counts()]: how often each value occurs. *)
Definition value_counts (s : list string) : gmap string nat :=
  foldr (λ x counts, <[x := S (default 0 (counts !! x))]> counts) ∅ s.

(** [counts.sum()] *)
Definition counts_sum (counts : gmap string nat) : nat :=
  sum_list (map_to_list counts).*2.

(** [df_train['t'].value_counts(normalize=True).to_dict()]: each count
    divided by the sum of the counts. *)
Definition treatment_prob (df_train : DataFrame) : gmap string Q :=
  let counts := value_counts (t <$> rows df_train) in
  (λ c, inject_Z (Z.of_nat c) / inject_Z (Z.of_nat (counts_sum counts)))%Q
    <$> counts.

End Preparation.

(** [sum(table.values())] *)
Definition table_total (table : gmap string Q) : Q :=
  np_sum (map_to_list table).*2.

(** The table with every weight multiplied by [c]. *)
Definition scale_table (c : Q) (table : gmap string Q) : gmap string Q :=
  (λ w, c * w)%Q <$> table.

(** ** A frame whose covariate matters

    [line_regressor] is the least-squares line through the points (first
    covariate, target): what [LinearRegression] fits on a matrix with one
    column, the slope being zero when that column is constant.  It
    follows scikit-learn in rejecting with [ValueError] an empty target
    and a target whose length is not the number of rows. *)

Module Heterogeneous.

Definition line_regressor : Regressor :=
  mkRegressor (λ X y,
    match y with
    | [] => Raise ValueError
    | _ =>
        if decide (length X = length y) then
          let x := (λ row, default 0%Q (head row)) <$> X in
          let n := inject_Z (Z.of_nat (length y)) in
          let x_mean := (np_sum x / n)%Q in
          let y_mean := (np_sum y / n)%Q in
          let sxx := np_sum ((λ a, (a - x_mean) * (a - x_mean))%Q <$> x) in
          let sxy :=
            np_sum (zip_with (λ a b, (a - x_mean) * (b - y_mean))%Q x y) in
          let slope := if Qeq_bool sxx 0 then 0%Q else Qred (sxy / sxx) in
          Ok (mkLinear (Qred (y_mean - slope * x_mean)) [slope])
        else Raise ValueError
    end).

(** Twelve units, three of each combination of the treatments A and B,
    with the covariate values 0, 1 and 2 in every combination.  The
    outcome of the units treated with A alone is not linear in the
    covariate. *)
Definition df_line : DataFrame :=
  mkFrame ["X1"; "TA"; "TB"; "y"]
    [ Estimators.unit_row 0 0 0 0 "0"; Estimators.unit_row 1 0 0 3 "0";
      Estimators.unit_row 2 0 0 6 "0";
      Estimators.unit_row 0 1 0 2 "A"; Estimators.unit_row 1 1 0 6 "A";
      Estimators.unit_row 2 1 0 7 "A";
      Estimators.unit_row 0 0 1 (-1) "B"; Estimators.unit_row 1 0 1 2 "B";
      Estimators.unit_row 2 0 1 5 "B";
      Estimators.unit_row 0 1 1 1 "AB"; Estimators.unit_row 1 1 1 5 "AB";
      Estimators.unit_row 2 1 1 9 "AB" ].

(** The covariate matrix of [df_line]. *)
Definition X_line : matrix :=
  [[0]; [1]; [2]; [0]; [1]; [2]; [0]; [1]; [2]; [0]; [1]; [2]]%Q.


End Heterogeneous.

(** ** The last step of [calculate_ate] in binary64

    [ate_model = LinearRegression().fit(X, aggregated_dr_scores)] and
    [ate = np.mean(ate_model.predict(X))], replayed on IEEE 754 binary64
    numbers, the floats of Python and numpy.  [np.mean] adds the entries
    from left to right (numpy sums fewer than eight entries in one plain
    loop) and divides by their number. *)

Module Binary64.

Definition np_sum (v : list float) : float :=
  fold_left PrimFloat.add v 0%float.

Definition np_mean (v : list float) : float :=
  PrimFloat.div (np_sum v)
    (PrimFloat.of_uint63 (Uint63.of_Z (Z.of_nat (length v)))).

Record LinearModel : Type :=
  mkLinear { intercept_ : float; coef_ : list float }.

Definition dot (a b : list float) : float :=
  np_sum (zip_with PrimFloat.mul a b).

Definition predict (m : LinearModel) (X : list (list float)) : list float :=
  (λ row, PrimFloat.add (dot row (coef_ m)) (intercept_ m)) <$> X.

(** [LinearRegression().fit(X, y)] on a covariate matrix whose entries
    are all zero: the centred matrix is zero, the least-squares
    coefficients of minimal norm are zero, and the intercept is the mean
    of the targets. *)
Definition fit_zero_covariates (X : list (list float)) (y : list float)
  : LinearModel :=
  mkLinear (np_mean y) ((λ _, 0%float) <$> default [] (head X)).

(** The value stored in [results[treatment]]. *)
Definition final_ate (X : list (list float)) (aggregated : list float)
  : float :=
  np_mean (predict (fit_zero_covariates X aggregated) X).

End Binary64.
(** * The engine on small inputs *)

Example C_ABC :
  Enumeration.C ["A"; "B"; "C"]
  = ["0"; "A"; "B"; "C"; "AB"; "AC"; "BC"; "ABC"].
Proof. reflexivity. Qed.

Example matched_pairs_ABC_B :
  Enumeration.matched_pairs (Enumeration.C ["A"; "B"; "C"]) "B"
  = [("B", "0"); ("AB", "A"); ("BC", "C"); ("ABC", "AC")].
Proof. reflexivity. Qed.

Example matched_pairs_ABCD_C :
  Enumeration.matched_pairs (Enumeration.C ["A"; "B"; "C"; "D"]) "C"
  = [("C", "0"); ("AC", "A"); ("BC", "B"); ("CD", "D");
     ("ABC", "AB"); ("ACD", "AD"); ("BCD", "BD"); ("ABCD", "ABD")].
Proof. reflexivity. Qed.

(** On [df_small] the estimates are 3 for A and -1 for B. *)
Example calculate_ate_small :
  ∃ results ate_A ate_B,
    calculate_ate Estimators.share_classifier Estimators.mean_regressor
      Estimators.df_small (Enumeration.C ["A"; "B"]) Estimators.prob_small
      ["A"; "B"] = Ok results
    ∧ results !! "A" = Some ate_A ∧ (ate_A == 3)%Q
    ∧ results !! "B" = Some ate_B ∧ (ate_B == -1)%Q.
Proof.
  destruct (calculate_ate Estimators.share_classifier
              Estimators.mean_regressor Estimators.df_small
              (Enumeration.C ["A"; "B"]) Estimators.prob_small ["A"; "B"])
    as [results|e] eqn:Hrun; [|by vm_compute in Hrun].
  vm_compute in Hrun. injection Hrun as <-.
  do 3 eexists. split_and!; [done | by vm_compute | by vm_compute
                             | by vm_compute | by vm_compute].
Qed.

(** * Facts about the enumeration *)

Section ListFacts.

Context {A B : Type}.

Lemma filter_fmap (f : A → B) (P : B → Prop) `{!∀ y, Decision (P y)}
    (l : list A) :
  filter P (f <$> l) = f <$> filter (λ x, P (f x)) l.
Proof.
  induction l as [|x l IH]; [done|].
  rewrite fmap_cons, !filter_cons, IH.
  by destruct (decide (P (f x))).
Qed.

Lemma filter_join (P : A → Prop) `{!∀ x, Decision (P x)}
    (ls : list (list A)) :
  filter P (mjoin ls) = mjoin (filter P <$> ls).
Proof.
  induction ls as [|l ls IH]; [done|].
  change (mjoin (l :: ls)) with (l ++ mjoin ls).
  change (mjoin (filter P <$> l :: ls))
    with (filter P l ++ mjoin (filter P <$> ls)).
  by rewrite filter_app, IH.
Qed.

Lemma join_cons (l : list A) (ls : list (list A)) :
  mjoin (l :: ls) = l ++ mjoin ls.
Proof. done. Qed.

Lemma filter_ext_elem_of (P Q : A → Prop) `{!∀ x, Decision (P x)}
    `{!∀ x, Decision (Q x)} (l : list A) :
  (∀ x, x ∈ l → (P x ↔ Q x)) → filter P l = filter Q l.
Proof.
  induction l as [|x l IH]; intros HPQ; [done|].
  rewrite !filter_cons, IH by (intros y Hy; apply HPQ; by right).
  pose proof (HPQ x (list_elem_of_here x l)) as Hx.
  destruct (decide (P x)), (decide (Q x)); tauto.
Qed.

Lemma filter_all (P : A → Prop) `{!∀ x, Decision (P x)} (l : list A) :
  (∀ x, x ∈ l → P x) → filter P l = l.
Proof.
  induction l as [|x l IH]; intros HP; [done|].
  rewrite filter_cons_True by (apply HP; by left).
  f_equal. apply IH. intros y Hy. apply HP. by right.
Qed.

Lemma filter_none (P : A → Prop) `{!∀ x, Decision (P x)} (l : list A) :
  (∀ x, x ∈ l → ¬ P x) → filter P l = [].
Proof.
  induction l as [|x l IH]; intros HP; [done|].
  rewrite filter_cons_False by (apply HP; by left).
  apply IH. intros y Hy. apply HP. by right.
Qed.

Lemma zip_fmap_fmap {D} (f : A → B) (g : A → D) (l : list A) :
  zip (f <$> l) (g <$> l) = (λ x, (f x, g x)) <$> l.
Proof. induction l; cbn; by f_equal. Qed.

End ListFacts.

Section Combinations.

Import Enumeration.
Context {A : Type} `{!EqDecision A}.
Implicit Types (l c : list A) (k x : A) (r : nat).

Lemma combinations_0 l : combinations l 0 = [[]].
Proof. by destruct l. Qed.

Lemma combinations_cons x l r :
  combinations (x :: l) (S r)
  = ((x ::.) <$> combinations l r) ++ combinations l (S r).
Proof. done. Qed.

Lemma combinations_spec l r c :
  c ∈ combinations l r → c `sublist_of` l ∧ length c = r.
Proof.
  revert r c. induction l as [|x l IH]; intros [|r] c.
  - intros ->%list_elem_of_singleton. split; [constructor | done].
  - by intros ?%elem_of_nil.
  - rewrite combinations_0. intros ->%list_elem_of_singleton.
    split; [apply sublist_nil_l | done].
  - rewrite combinations_cons, elem_of_app, list_elem_of_fmap.
    intros [(c' & -> & Hc')|Hc].
    + destruct (IH _ _ Hc') as [Hs <-]. split; [by constructor | done].
    + destruct (IH _ _ Hc) as [Hs Hlen]. split; [by constructor | done].
Qed.

Lemma sublist_combinations c l :
  c `sublist_of` l → c ∈ combinations l (length c).
Proof.
  induction 1 as [|x c l _ IH|x c l _ IH].
  - by left.
  - cbn [length]. rewrite combinations_cons, elem_of_app, list_elem_of_fmap.
    left. by exists c.
  - destruct c as [|y c].
    + rewrite combinations_0. by left.
    + cbn [length] in *. rewrite combinations_cons, elem_of_app. by right.
Qed.

Lemma combinations_not_elem_of k l r c :
  k ∉ l → c ∈ combinations l r → k ∉ c.
Proof.
  intros Hk [Hs _]%combinations_spec Hkc. apply Hk.
  by eapply elem_of_sublist.
Qed.

Lemma combinations_NoDup l r : NoDup l → NoDup (combinations l r).
Proof.
  revert r. induction l as [|x l IH]; intros [|r] Hl.
  - apply NoDup_singleton.
  - constructor.
  - rewrite combinations_0. apply NoDup_singleton.
  - apply NoDup_cons in Hl as [Hx Hl].
    rewrite combinations_cons. apply NoDup_app. split_and!.
    + apply NoDup_fmap_2; [|by apply IH]. by intros ?? [=].
    + intros c (c' & -> & _)%list_elem_of_fmap Hc.
      eapply combinations_not_elem_of in Hc; [|done]. apply Hc. by left.
    + by apply IH.
Qed.

Lemma combinations_full k l :
  k ∈ l → filter (λ c, k ∉ c) (combinations l (length l)) = [].
Proof.
  intros Hk. apply filter_none. intros c [Hs Hlen]%combinations_spec Hkc.
  apply Hkc. assert (c = l) as ->; [|done].
  clear Hkc Hk. induction Hs as [|x c l Hs IH|x c l Hs IH]; [done| |].
  - f_equal. apply IH. by injection Hlen.
  - apply sublist_length in Hs. cbn [length] in Hlen. lia.
Qed.

(** Taking [k] out of the [r+1]-element combinations that contain it
    enumerates, in the same order, the [r]-element combinations that do
    not. *)
Lemma without_combinations k l r :
  NoDup l → k ∈ l →
  without k <$> filter (λ c, k ∈ c) (combinations l (S r))
  = filter (λ c, k ∉ c) (combinations l r).
Proof.
  revert r. induction l as [|x l IH]; intros r Hl Hk.
  { by apply elem_of_nil in Hk. }
  apply NoDup_cons in Hl as [Hx Hl].
  rewrite combinations_cons, filter_app, fmap_app.
  destruct (decide (x = k)) as [->|Hne].
  - rewrite (filter_all _ (_ <$> _)), (filter_none _ (combinations l (S r))).
    2:{ intros c Hc Hkc. by eapply combinations_not_elem_of in Hc. }
    2:{ intros c (c' & -> & _)%list_elem_of_fmap. by left. }
    rewrite app_nil_r.
    assert (without k <$> ((k ::.) <$> combinations l r) = combinations l r)
      as Hid.
    { transitivity (id <$> combinations l r); [|apply list_fmap_id].
      rewrite <-list_fmap_compose. apply list_fmap_ext. intros i c Hc%list_elem_of_lookup_2.
      unfold compose, without. rewrite filter_cons_False by (by intros []).
      apply filter_all. intros y Hy ->.
      by eapply combinations_not_elem_of in Hc. }
    rewrite Hid.
    destruct r as [|r].
    + by rewrite !combinations_0.
    + rewrite combinations_cons, filter_app.
      rewrite (filter_none _ (_ <$> _)), (filter_all _ (combinations l (S r))).
      * done.
      * intros c Hc. by eapply combinations_not_elem_of in Hc.
      * intros c (c' & -> & _)%list_elem_of_fmap Hc. apply Hc. by left.
  - assert (k ∈ l) as Hkl
      by (apply elem_of_cons in Hk as [Heq|Hkl]; [congruence|done]).
    rewrite (IH r Hl Hkl), filter_fmap.
    rewrite (filter_ext_elem_of (λ c, k ∈ x :: c) (λ c, k ∈ c)).
    2:{ intros c _. rewrite elem_of_cons. intuition congruence. }
    rewrite <-list_fmap_compose.
    rewrite (list_fmap_ext (without k ∘ (x ::.)) ((x ::.) ∘ without k)
               (filter (λ c, k ∈ c) (combinations l r))).
    2:{ intros i c _. unfold compose, without. by rewrite filter_cons_True. }
    rewrite list_fmap_compose.
    destruct r as [|r].
    + rewrite !combinations_0. by rewrite filter_none
        by (intros c ->%list_elem_of_singleton ?%elem_of_nil; done).
    + rewrite (IH r Hl Hkl), (combinations_cons x l r), filter_app, filter_fmap.
      f_equal. f_equal. apply filter_ext_elem_of.
      intros c _. rewrite elem_of_cons. intuition congruence.
Qed.

Lemma elem_of_chain_combinations c l :
  c ∈ chain_combinations l ↔ c `sublist_of` l.
Proof.
  unfold chain_combinations. rewrite list_elem_of_join. split.
  - intros (cs & Hc & (r & -> & _)%list_elem_of_fmap).
    by apply combinations_spec in Hc as [? _].
  - intros Hs. exists (combinations l (length c)). split.
    + by apply sublist_combinations.
    + apply list_elem_of_fmap. eexists; split; [done|].
      apply elem_of_seq. apply sublist_length in Hs. lia.
Qed.

Lemma chain_combinations_NoDup l : NoDup l → NoDup (chain_combinations l).
Proof.
  intros Hl. unfold chain_combinations.
  generalize 0 (S (length l)). intros a n. revert a.
  induction n as [|n IH]; intros a; [constructor|].
  change (NoDup (combinations l a ++ mjoin (combinations l <$> seq (S a) n))).
  apply NoDup_app. split_and!; [by apply combinations_NoDup| |apply IH].
  intros c [_ Hlen]%combinations_spec
    (cs & Hc & (r & -> & Hr%elem_of_seq)%list_elem_of_fmap)%list_elem_of_join.
  apply combinations_spec in Hc as [_ Hlen']. lia.
Qed.

Lemma filter_with_chain k l :
  filter (λ c, k ∈ c) (chain_combinations l)
  = mjoin ((λ r, filter (λ c, k ∈ c) (combinations l (S r)))
             <$> seq 0 (length l)).
Proof.
  unfold chain_combinations.
  rewrite filter_join, <-list_fmap_compose, <-cons_seq, fmap_cons.
  unfold compose at 1.
  rewrite combinations_0, filter_none
    by (intros c ->%list_elem_of_singleton ?%elem_of_nil; done).
  change (mjoin ([] :: ?ls)) with (mjoin ls).
  by rewrite <-fmap_S_seq, <-list_fmap_compose.
Qed.

Lemma filter_without_chain k l :
  k ∈ l →
  filter (λ c, k ∉ c) (chain_combinations l)
  = mjoin ((λ r, filter (λ c, k ∉ c) (combinations l r))
             <$> seq 0 (length l)).
Proof.
  intros Hk. unfold chain_combinations.
  rewrite filter_join, <-list_fmap_compose, seq_S, fmap_app, join_app.
  cbn [fmap list_fmap compose mjoin list_join].
  by rewrite Nat.add_0_l, combinations_full, !app_nil_r.
Qed.

(** Over the whole enumeration: the with-[k] combinations, each with [k]
    taken out, are the without-[k] combinations in enumeration order. *)
Lemma without_chain_combinations k l :
  NoDup l → k ∈ l →
  without k <$> filter (λ c, k ∈ c) (chain_combinations l)
  = filter (λ c, k ∉ c) (chain_combinations l).
Proof.
  intros Hl Hk. rewrite filter_with_chain, filter_without_chain by done.
  generalize (seq 0 (length l)). intros rs.
  induction rs as [|r rs IH]; [done|].
  rewrite !fmap_cons, !join_cons, fmap_app, IH.
  by rewrite without_combinations.
Qed.

End Combinations.

(** ** The string codes of the combinations *)

Section Codes.

Import Enumeration.
Implicit Types (s k : string) (c : list string) (a b : Ascii.ascii).

Lemma single_char_inv s : single_char s → ∃ a, s = String a "".
Proof. destruct s as [|a [|??]]; try done. by exists a. Qed.

Lemma join_cons_char a c : join (String a "" :: c) = String a (join c).
Proof. by destruct c. Qed.

Lemma prefix_empty s : String.prefix "" s = true.
Proof. by destruct s. Qed.

Lemma py_in_char b a s :
  py_in (String b "") (String a s) = true
  ↔ a = b ∨ py_in (String b "") s = true.
Proof.
  cbn [py_in String.prefix]. rewrite prefix_empty.
  destruct (Ascii.ascii_dec b a) as [->|Hne]; cbn [orb].
  - tauto.
  - split; [by right|]. intros [?|?]; [congruence|done].
Qed.

Lemma py_in_join k c :
  single_char k → Forall single_char c →
  py_in k (join c) = true ↔ k ∈ c.
Proof.
  intros [b ->]%single_char_inv Hc.
  induction Hc as [|x c [a ->]%single_char_inv _ IH].
  - split; [done | by intros ?%elem_of_nil].
  - rewrite join_cons_char, py_in_char, IH, elem_of_cons.
    split; (intros [?|?]; [left; congruence | by right]).
Qed.

Lemma join_empty c : Forall single_char c → join c = "" → c = [].
Proof.
  destruct 1 as [|x c [a ->]%single_char_inv _]; [done|].
  by rewrite join_cons_char.
Qed.

Lemma join_inj c c' :
  Forall single_char c → Forall single_char c' → join c = join c' → c = c'.
Proof.
  intros Hc. revert c'.
  induction Hc as [|x c [a ->]%single_char_inv _ IH]; intros c' Hc' Heq.
  - symmetry in Heq. symmetry. by apply join_empty.
  - destruct Hc' as [|x' c' [a' ->]%single_char_inv Hc'];
      [by rewrite join_cons_char in Heq|].
    rewrite !join_cons_char in Heq. injection Heq as -> Heq.
    f_equal. by apply IH.
Qed.

Lemma code_nonempty c : c ≠ [] → Forall single_char c → code c = join c.
Proof.
  intros Hne Hc. unfold code. case_decide as Hj; [|done].
  by apply join_empty in Hj.
Qed.

Lemma join_zero c : Forall single_char c → join c = "0" → c = ["0"].
Proof.
  destruct 1 as [|x c [a ->]%single_char_inv Hc]; [done|].
  rewrite join_cons_char. intros [= -> Hj]. by apply join_empty in Hj as ->.
Qed.

Lemma py_in_code k c :
  single_char k → k ≠ "0" → Forall single_char c →
  py_in k (code c) = true ↔ k ∈ c.
Proof.
  intros Hk Hk0 Hc. destruct c as [|x c].
  - apply single_char_inv in Hk as [b ->]. split; [|by intros ?%elem_of_nil].
    change (code []) with "0". rewrite py_in_char. intros [<-|?]; done.
  - rewrite code_nonempty by done. by apply py_in_join.
Qed.

Lemma code_inj c c' :
  Forall single_char c → Forall single_char c' → "0" ∉ c → "0" ∉ c' →
  code c = code c' → c = c'.
Proof.
  intros Hc Hc' H0 H0' Heq.
  destruct c as [|x c], c' as [|x' c']; [done| | |].
  - rewrite (code_nonempty (x' :: c')) in Heq by done.
    symmetry in Heq. apply join_zero in Heq; [|done].
    rewrite Heq in H0'. by apply not_elem_of_cons in H0' as [? _].
  - rewrite (code_nonempty (x :: c)) in Heq by done.
    apply join_zero in Heq; [|done].
    rewrite Heq in H0. by apply not_elem_of_cons in H0 as [? _].
  - rewrite !code_nonempty in Heq by done. by apply join_inj.
Qed.

Lemma C_code TREATMENTS : C TREATMENTS = code <$> chain_combinations TREATMENTS.
Proof.
  unfold C, all_combinations. rewrite <-list_fmap_compose.
  apply list_fmap_ext. intros _ c _. unfold compose, code.
  by destruct (decide (join c = "")).
Qed.

End Codes.

(** ** The pairing of combinations *)

Section Pairing.

Import Enumeration.

Lemma chain_single_char TREATMENTS c :
  Forall single_char TREATMENTS → c ∈ chain_combinations TREATMENTS →
  Forall single_char c.
Proof.
  intros HT Hc%elem_of_chain_combinations.
  rewrite Forall_forall in *. intros x Hx. apply HT.
  by eapply elem_of_sublist.
Qed.

Lemma chain_no_zero TREATMENTS c :
  "0" ∉ TREATMENTS → c ∈ chain_combinations TREATMENTS → "0" ∉ c.
Proof.
  intros HT Hc%elem_of_chain_combinations H0. apply HT.
  by eapply elem_of_sublist.
Qed.

Lemma W_k_code TREATMENTS k :
  plain_labels TREATMENTS → k ∈ TREATMENTS →
  W_k (C TREATMENTS) k
  = code <$> filter (λ c, k ∈ c) (chain_combinations TREATMENTS).
Proof.
  intros (Hnd & Hsc & H0) Hk. unfold W_k. rewrite C_code, filter_fmap.
  f_equal. apply filter_ext_elem_of. intros c Hc. apply py_in_code.
  - rewrite Forall_forall in Hsc. by apply Hsc.
  - by intros ->.
  - by eapply chain_single_char.
Qed.

Lemma S__k_code TREATMENTS k :
  plain_labels TREATMENTS → k ∈ TREATMENTS →
  S__k (C TREATMENTS) k
  = code <$> filter (λ c, k ∉ c) (chain_combinations TREATMENTS).
Proof.
  intros (Hnd & Hsc & H0) Hk. unfold S__k. rewrite C_code, filter_fmap.
  f_equal. apply filter_ext_elem_of. intros c Hc.
  rewrite <-py_in_code, not_true_iff_false; [done| | |].
  - rewrite Forall_forall in Hsc. by apply Hsc.
  - by intros ->.
  - by eapply chain_single_char.
Qed.

Lemma C_NoDup TREATMENTS : plain_labels TREATMENTS → NoDup (C TREATMENTS).
Proof.
  intros (Hnd & Hsc & H0). rewrite C_code.
  apply NoDup_fmap_2_strong; [|by apply chain_combinations_NoDup].
  intros c c' Hc Hc'.
  apply code_inj; eauto using chain_single_char, chain_no_zero.
Qed.

Lemma W_S_Permutation C k : W_k C k ++ S__k C k ≡ₚ C.
Proof.
  unfold W_k, S__k.
  rewrite (list_filter_iff (λ comb, py_in k comb = false)
             (λ comb, ¬ py_in k comb = true)).
  - apply filter_app_complement.
  - intros comb. by rewrite not_true_iff_false.
Qed.

End Pairing.

(** C1, as amended.  When the treatment labels are distinct single
    characters other than ["0"], then for every treatment [k] of the list
    the position-by-position pairing [zip(W_k, S__k)] over the enumeration
    order of [C] meets each combination containing [k] with the same
    combination without [k]; the with-[k] and without-[k] lists have the
    same length, each code occurs once, and together they are exactly
    [C], the codes of the full power set. *)
Theorem pairing_plain_labels (TREATMENTS : list string) (k : string) :
  plain_labels TREATMENTS → k ∈ TREATMENTS → pairing_ok TREATMENTS k.
Proof.
  intros HT Hk. pose proof HT as (Hnd & Hsc & H0).
  pose proof (W_k_code _ _ HT Hk) as HW.
  pose proof (S__k_code _ _ HT Hk) as HS.
  rewrite <-without_chain_combinations, <-list_fmap_compose in HS by done.
  assert (length (Enumeration.W_k (Enumeration.C TREATMENTS) k)
          = length (Enumeration.S__k (Enumeration.C TREATMENTS) k)) as Hlen.
  { by rewrite HW, HS, !length_fmap. }
  unfold pairing_ok. cbv zeta. split_and!.
  - done.
  - unfold Enumeration.matched_pairs. rewrite HW, HS. apply zip_fmap_fmap.
  - done.
  - apply fst_zip. lia.
  - apply snd_zip. lia.
  - rewrite W_S_Permutation. by apply C_NoDup.
  - apply W_S_Permutation.
  - intros c Hc. rewrite C_code. apply list_elem_of_fmap.
    exists c. split; [done|]. by apply elem_of_chain_combinations.
Qed.

Lemma pairing_plain_labels_witness : pairing_ok ["A"; "B"; "C"] "B".
Proof. apply pairing_plain_labels; compute_done. Defined.

(** C1, the property as stated (for every treatment of every label list),
    fails for the labels ["A"] and ["AB"]: ["A"] occurs in three of the
    four codes, so one pair is formed and two with-["A"] combinations stay
    unmatched. *)
Lemma pairing_fails_overlapping_labels :
  "A" ∈ ["A"; "AB"] ∧ ¬ pairing_ok ["A"; "AB"] "A".
Proof.
  split; [by left|]. intros (_ & _ & Hlen & _). by vm_compute in Hlen.
Qed.

(** ** Fallible computations *)

Section Results.

Context {A B : Type}.

Lemma bind_Ok (f : A → result B) (a : A) : Ok a ≫= f = f a.
Proof. done. Qed.

Lemma bind_Ok_inv (f : A → result B) (m : result A) (b : B) :
  m ≫= f = Ok b → ∃ a, m = Ok a ∧ f a = Ok b.
Proof. destruct m as [a|e]; [by exists a | done]. Qed.

End Results.

(** ** The doubly robust scores *)

Section Scores.

Lemma np_zip_ok f (a b : vector) :
  length a = length b → np_zip f a b = Ok (zip_with f a b).
Proof. intros Hlen. unfold np_zip. by rewrite decide_True. Qed.

(** One elementwise operation on aligned arrays, at the head of a
    sequence of binds. *)
Ltac np_step :=
  match goal with
  | |- context [np_zip ?f ?a ?b ≫= ?k] =>
      rewrite (np_zip_ok f a b), (bind_Ok k)
        by (rewrite ?length_zip_with, ?length_fmap; lia)
  end.

Lemma length_predict m X : length (predict m X) = length X.
Proof. apply length_fmap. Qed.

(** The formula succeeds on aligned arrays, keeps their length and is the
    per-unit expression of the source. *)
Lemma doubly_robust_formula_aligned (y T ps m0_hat m1_hat : vector) n :
  length y = n → length T = n → length ps = n →
  length m0_hat = n → length m1_hat = n →
  ∃ scores,
    doubly_robust_formula y T ps m0_hat m1_hat = Ok scores
    ∧ length scores = n
    ∧ ∀ i yi Ti pi a0 a1,
        y !! i = Some yi → T !! i = Some Ti → ps !! i = Some pi →
        m0_hat !! i = Some a0 → m1_hat !! i = Some a1 →
        scores !! i
        = Some ((a1 + Ti * (yi - a1) / pi)
                - (a0 + (1 - Ti) * (yi - a0) / (1 - pi)))%Q.
Proof.
  intros Hy HT Hps H0 H1. unfold doubly_robust_formula.
  repeat np_step.
  rewrite np_zip_ok by (rewrite ?length_zip_with, ?length_fmap; lia).
  eexists. split; [done|]. split.
  { rewrite ?length_zip_with, ?length_fmap. lia. }
  intros i yi Ti pi a0 a1 Hyi HTi Hpi Ha0 Ha1.
  rewrite !lookup_zip_with, !list_lookup_fmap.
  by rewrite Hyi, HTi, Hpi, Ha0, Ha1.
Qed.



End Scores.

(** C2.  On aligned matched-pair arrays whose propensities lie strictly
    between 0 and 1, and with the two arm-wise outcome models fitted,
    [calculate_doubly_robust_scores] returns one score per unit, and the
    score of unit [i] is
    [(m1_hat + T * (y - m1_hat) / ps) - (m0_hat + (1 - T) * (y - m0_hat) / (1 - ps))]
    at [i]. *)
Theorem doubly_robust_scores_formula (reg : Regressor) (X : matrix)
    (y T ps : vector) (m0 m1 : LinearModel) :
  length y = length X → length T = length X → length ps = length X →
  Forall (λ p, 0 < p ∧ p < 1)%Q ps →
  lr_fit reg (select ((λ e, Qeq_bool e 0) <$> T) X)
             (select ((λ e, Qeq_bool e 0) <$> T) y) = Ok m0 →
  lr_fit reg (select ((λ e, Qeq_bool e 1) <$> T) X)
             (select ((λ e, Qeq_bool e 1) <$> T) y) = Ok m1 →
  ∃ scores,
    calculate_doubly_robust_scores reg X y T ps = Ok scores
    ∧ length scores = length X
    ∧ ∀ i yi Ti pi m0_hat m1_hat,
        y !! i = Some yi → T !! i = Some Ti → ps !! i = Some pi →
        predict m0 X !! i = Some m0_hat → predict m1 X !! i = Some m1_hat →
        scores !! i
        = Some ((m1_hat + Ti * (yi - m1_hat) / pi)
                - (m0_hat + (1 - Ti) * (yi - m0_hat) / (1 - pi)))%Q.
Proof.
  intros Hy HT Hps _ Hm0 Hm1. unfold calculate_doubly_robust_scores.
  rewrite Hm0, bind_Ok, Hm1, bind_Ok.
  by apply doubly_robust_formula_aligned; rewrite ?length_predict.
Qed.

Lemma doubly_robust_scores_formula_witness :
  ∃ scores,
    calculate_doubly_robust_scores Estimators.mean_regressor
      [[0]; [0]; [0]; [0]]%Q [1; 3; 4; 6]%Q [0; 0; 1; 1]%Q
      [1 # 2; 1 # 2; 1 # 2; 1 # 2]%Q = Ok scores
    ∧ length scores = 4.
Proof.
  destruct (doubly_robust_scores_formula Estimators.mean_regressor
              [[0]; [0]; [0]; [0]]%Q [1; 3; 4; 6]%Q [0; 0; 1; 1]%Q
              [1 # 2; 1 # 2; 1 # 2; 1 # 2]%Q
              (mkLinear (4 # 2) [0%Q]) (mkLinear (10 # 2) [0%Q]))
    as (scores & Hrun & Hlen & _);
    [reflexivity | reflexivity | reflexivity
    | repeat constructor | reflexivity | reflexivity |].
  exists scores. by split.
Defined.

(** ** Dictionaries, [mapM] and the built-in [sum] *)

Section Dicts.

Context {V : Type}.
Implicit Types (d l : list (string * V)) (k : string) (v : V).

Lemma dict_set_fresh k v d : k ∉ d.*1 → dict_set k v d = d ++ [(k, v)].
Proof.
  induction d as [|[k' v'] d IH]; intros Hk; [done|].
  apply not_elem_of_cons in Hk as [Hne Hk]. cbn in Hne.
  cbn [dict_set]. rewrite decide_False by done. by rewrite IH.
Qed.

Lemma dict_set_keys k v d k' : k' ∈ (dict_set k v d).*1 → k' = k ∨ k' ∈ d.*1.
Proof.
  induction d as [|[k0 v0] d IH]; cbn [dict_set].
  - intros ->%list_elem_of_singleton. by left.
  - case_decide as Hk; subst; rewrite !fmap_cons, !elem_of_cons; cbn.
    + tauto.
    + intros [?|?%IH]; tauto.
Qed.

Lemma dict_set_nonempty k v d : dict_set k v d ≠ [].
Proof. destruct d as [|[k' v'] d]; cbn; [done|]. by case_decide. Qed.

Lemma dict_fold_keys l d k :
  k ∈ (fold_left (λ d kv, dict_set kv.1 kv.2 d) l d).*1 →
  k ∈ d.*1 ∨ k ∈ l.*1.
Proof.
  revert d. induction l as [|[k' v'] l IH]; intros d; cbn [fold_left].
  - by left.
  - intros [[->|?]%dict_set_keys|?]%IH; rewrite fmap_cons, elem_of_cons;
      cbn; tauto.
Qed.

Lemma dict_fold_nonempty l d :
  d ≠ [] → fold_left (λ d kv, dict_set kv.1 kv.2 d) l d ≠ [].
Proof.
  revert d. induction l as [|kv l IH]; intros d Hd; [done|].
  apply IH, dict_set_nonempty.
Qed.

Lemma dict_of_keys l k : k ∈ (dict_of l).*1 → k ∈ l.*1.
Proof. intros [?%elem_of_nil|?]%dict_fold_keys; done. Qed.

Lemma dict_of_nil l : dict_of l = [] → l = [].
Proof.
  destruct l as [|kv l]; [done|]. unfold dict_of. cbn [fold_left].
  intros H. by apply dict_fold_nonempty in H; [|apply dict_set_nonempty].
Qed.

Lemma dict_fold_NoDup l d :
  NoDup (d ++ l).*1 → fold_left (λ d kv, dict_set kv.1 kv.2 d) l d = d ++ l.
Proof.
  revert d. induction l as [|[k v] l IH]; intros d Hnd; cbn [fold_left].
  - by rewrite app_nil_r.
  - cbn [fst snd]. rewrite dict_set_fresh.
    + rewrite IH; rewrite <-app_assoc; done.
    + rewrite fmap_app in Hnd. apply NoDup_app in Hnd as (_ & Hd & _).
      intros Hk. apply (Hd k Hk). by left.
Qed.

Lemma dict_of_NoDup l : NoDup l.*1 → dict_of l = l.
Proof. intros Hnd. unfold dict_of. by rewrite dict_fold_NoDup. Qed.

Lemma dict_get_elem_of k d : k ∈ d.*1 → ∃ v, dict_get k d = Ok v.
Proof.
  induction d as [|[k' v'] d IH]; [by intros ?%elem_of_nil|].
  rewrite fmap_cons, elem_of_cons. cbn [dict_get]. intros Hk.
  case_decide; [by eexists|]. apply IH. by destruct Hk.
Qed.

Lemma dict_get_NoDup k v d : NoDup d.*1 → (k, v) ∈ d → dict_get k d = Ok v.
Proof.
  induction d as [|[k' v'] d IH]; [by intros _ ?%elem_of_nil|].
  rewrite fmap_cons, NoDup_cons, elem_of_cons. cbn [dict_get fst].
  intros [Hk' Hnd] [[= -> ->]|Hin].
  - by rewrite decide_True.
  - rewrite decide_False; [by apply IH|]. intros ->. apply Hk'.
    apply list_elem_of_fmap. by exists (k', v).
Qed.

Lemma dict_set_elem_of k v d kv :
  kv ∈ dict_set k v d → kv = (k, v) ∨ kv ∈ d.
Proof.
  induction d as [|[k0 v0] d IH]; cbn [dict_set].
  - intros ->%list_elem_of_singleton. by left.
  - case_decide as Hk; subst; rewrite !elem_of_cons.
    + tauto.
    + intros [?|?%IH]; tauto.
Qed.

Lemma dict_fold_elem_of l d kv :
  kv ∈ fold_left (λ d kv, dict_set kv.1 kv.2 d) l d → kv ∈ d ∨ kv ∈ l.
Proof.
  revert d. induction l as [|[k' v'] l IH]; intros d; cbn [fold_left].
  - by left.
  - intros [[->|?]%dict_set_elem_of|?]%IH; rewrite elem_of_cons; tauto.
Qed.

Lemma dict_of_elem_of l kv : kv ∈ dict_of l → kv ∈ l.
Proof. intros [?%elem_of_nil|?]%dict_fold_elem_of; done. Qed.

Lemma dict_get_Ok k v d : dict_get k d = Ok v → (k, v) ∈ d.
Proof.
  induction d as [|[k' v'] d IH]; [done|]. cbn [dict_get].
  case_decide as Hk.
  - intros [= <-]. subst. by left.
  - intros ?%IH. by right.
Qed.

End Dicts.

Section MapM.

Context {A B : Type}.

Lemma mapM_cons (f : A → result B) x l :
  mapM f (x :: l) = y ← f x; k ← mapM f l; mret (y :: k).
Proof. done. Qed.

Lemma mapM_fmap_Ok (f : A → result B) (g : A → B) (l : list A) :
  Forall (λ x, f x = Ok (g x)) l → mapM f l = Ok (g <$> l).
Proof.
  induction 1 as [|x l Hx _ IH]; [done|].
  by rewrite mapM_cons, Hx, bind_Ok, IH.
Qed.

Lemma mapM_Ok_inv (f : A → result B) (l : list A) (k : list B) :
  mapM f l = Ok k → Forall2 (λ x y, f x = Ok y) l k.
Proof.
  revert k. induction l as [|x l IH]; intros k.
  - intros [= <-]. constructor.
  - rewrite mapM_cons. intros (y & Hy & (k' & Hk' & [= <-])%bind_Ok_inv)%bind_Ok_inv.
    constructor; [done | by apply IH].
Qed.

End MapM.

(** ** The weighted aggregation *)

Section Aggregation.

Implicit Types (dr : list (string * vector)) (tp : gmap string Q).

Lemma fold_py_add_scalars (ws : vector) (a : Q) :
  fold_left py_add (Scalar <$> ws) (Scalar a) = Scalar (fold_left Qplus ws a).
Proof. revert a. induction ws as [|w ws IH]; intros a; [done|]. apply IH. Qed.

Lemma fold_Qplus_np_sum (ws : vector) (a : Q) :
  (fold_left Qplus ws a == a + np_sum ws)%Q.
Proof.
  revert a. induction ws as [|w ws IH]; intros a; cbn.
  - ring.
  - rewrite IH. unfold np_sum. ring.
Qed.

Lemma py_sum_scalars (ws : vector) :
  ∃ d, py_sum (Scalar <$> ws) = Scalar d ∧ (d == np_sum ws)%Q.
Proof.
  unfold py_sum. rewrite fold_py_add_scalars. eexists. split; [done|].
  rewrite fold_Qplus_np_sum. ring.
Qed.

Lemma fold_py_add_series (vs : list vector) (acc : vector) :
  ∃ v, fold_left py_add (Series <$> vs) (Series acc) = Series v.
Proof.
  revert acc. induction vs as [|s vs IH]; intros acc; [by eexists|]. apply IH.
Qed.

Lemma py_sum_series (vs : list vector) :
  vs ≠ [] → ∃ v, py_sum (Series <$> vs) = Series v.
Proof. destruct vs as [|s vs]; [done|]. intros _. apply fold_py_add_series. Qed.

Lemma fold_py_add_series_lookup (vs : list vector) (acc : vector) n :
  length acc = n → Forall (λ s, length s = n) vs →
  ∃ v, fold_left py_add (Series <$> vs) (Series acc) = Series v
       ∧ length v = n
       ∧ ∀ i a, acc !! i = Some a →
           ∃ x, v !! i = Some x
                ∧ (x == a + np_sum ((λ s, default 0 (s !! i)) <$> vs))%Q.
Proof.
  intros Hacc Hvs. revert acc Hacc.
  induction Hvs as [|s vs Hs _ IH]; intros acc Hacc.
  - exists acc. split_and!; [done..|]. intros i a Ha. exists a.
    split; [done|]. cbn. ring.
  - cbn [fmap list_fmap fold_left py_add].
    destruct (IH (zip_with Qplus acc s)) as (v & Hv & Hlen & Hlook).
    { rewrite length_zip_with. lia. }
    exists v. split_and!; [done..|]. intros i a Ha.
    destruct (lookup_lt_is_Some_2 s i) as [b Hb].
    { apply lookup_lt_Some in Ha. lia. }
    destruct (Hlook i (a + b)%Q) as (x & Hx & Hval).
    { by rewrite lookup_zip_with, Ha, Hb. }
    exists x. split; [done|]. rewrite Hval, Hb. cbn. unfold np_sum. ring.
Qed.

Lemma py_sum_series_lookup (vs : list vector) n :
  vs ≠ [] → Forall (λ s, length s = n) vs →
  ∃ v, py_sum (Series <$> vs) = Series v
       ∧ length v = n
       ∧ ∀ i, i < n →
           ∃ x, v !! i = Some x
                ∧ (x == np_sum ((λ s, default 0 (s !! i)) <$> vs))%Q.
Proof.
  destruct vs as [|s vs]; [done|]. intros _ [Hs Hvs]%Forall_cons.
  unfold py_sum. cbn [fmap list_fmap fold_left py_add].
  destruct (fold_py_add_series_lookup vs ((λ e, 0 + e)%Q <$> s) n)
    as (v & Hv & Hlen & Hlook); [by rewrite length_fmap | done |].
  exists v. split_and!; [done..|]. intros i Hi.
  destruct (lookup_lt_is_Some_2 s i) as [b Hb]; [lia|].
  destruct (Hlook i (0 + b)%Q) as (x & Hx & Hval).
  { by rewrite list_lookup_fmap, Hb. }
  exists x. split; [done|]. rewrite Hval, Hb. cbn. unfold np_sum. ring.
Qed.

Lemma omap_weights dr tp :
  omap (λ col, (λ w, (col, w)) <$> tp !! col) dr.*1
  = (λ cs, (cs.1, weight_of tp cs)) <$> present_columns dr tp.
Proof.
  unfold present_columns. induction dr as [|[col s] dr IH]; [done|].
  rewrite fmap_cons, filter_cons. cbn [omap list_omap fst].
  destruct (tp !! col) as [w|] eqn:Hw.
  - rewrite decide_True by done. rewrite fmap_cons, <-IH.
    unfold weight_of. cbn [fst fmap option_fmap option_map]. by rewrite Hw.
  - rewrite decide_False by (by intros [? ?]). apply IH.
Qed.

Lemma valid_weights_keys dr tp col w :
  (col, w) ∈ valid_weights dr tp → col ∈ dr.*1.
Proof.
  intros Hin. assert (col ∈ (valid_weights dr tp).*1) as Hk.
  { apply list_elem_of_fmap. by exists (col, w). }
  apply dict_of_keys, list_elem_of_fmap in Hk as ([col' w'] & -> & Hin').
  apply list_elem_of_omap in Hin' as (c & Hc & Heq).
  destruct (tp !! c); [|done]. injection Heq as <- _. done.
Qed.

Lemma valid_weights_nil dr tp :
  valid_weights dr tp = [] ↔ Forall (λ col, tp !! col = None) dr.*1.
Proof.
  unfold valid_weights. split.
  - intros Hnil%dict_of_nil. induction dr.*1 as [|col cols IH]; [done|].
    cbn [omap list_omap] in Hnil. destruct (tp !! col) eqn:Hc; [done|].
    constructor; [done | by apply IH].
  - intros Hall. assert (omap (λ col, (λ w, (col, w)) <$> tp !! col) dr.*1 = [])
      as ->; [|done].
    induction Hall as [|col cols Hc _ IH]; [done|].
    cbn [omap list_omap]. by rewrite Hc.
Qed.

(** The terms of the weighted sum are Series, one per valid weight, as
    long as the columns they scale. *)
Lemma weighted_terms dr tp :
  ∃ vs, mapM (λ cw, s ← dict_get cw.1 dr;
                    mret (Series ((λ e, e * cw.2)%Q <$> s)))
          (valid_weights dr tp) = Ok (Series <$> vs)
        ∧ length vs = length (valid_weights dr tp)
        ∧ ∀ n, Forall (λ cs, length cs.2 = n) dr →
               Forall (λ s, length s = n) vs.
Proof.
  set (get := λ cw : string * Q,
         match dict_get cw.1 dr with Ok s => s | Raise _ => [] end).
  exists ((λ cw, (λ e, e * cw.2)%Q <$> get cw) <$> valid_weights dr tp).
  split_and!; [|by rewrite length_fmap|].
  - rewrite <-list_fmap_compose. apply mapM_fmap_Ok, Forall_forall.
    intros [col w] Hin. unfold compose, get. cbn [fst snd].
    destruct (dict_get_elem_of col dr) as [s ->]; [|done].
    by eapply valid_weights_keys.
  - intros n Hlen. apply Forall_fmap, Forall_forall.
    intros [col w] Hin. unfold compose, get. cbn [fst snd].
    rewrite length_fmap.
    destruct (dict_get_elem_of col dr) as [s Hs];
      [by eapply valid_weights_keys|].
    rewrite Hs. apply dict_get_Ok in Hs. rewrite Forall_forall in Hlen.
    by apply (Hlen _ Hs).
Qed.

(** When a column is in the table the aggregation returns a Series. *)
Lemma compute_weighted_returns dr tp :
  valid_weights dr tp ≠ [] →
  ∃ v, compute_weighted_dr_scores dr tp = Ok (Series v).
Proof.
  intros Hne. unfold compute_weighted_dr_scores. cbv zeta.
  destruct (weighted_terms dr tp) as (vs & -> & Hlen & _). rewrite bind_Ok.
  destruct (py_sum_series vs) as [v ->].
  { intros ->. by destruct (valid_weights dr tp). }
  destruct (py_sum_scalars (valid_weights dr tp).*2) as (d & -> & _).
  by eexists.
Qed.

(** The aggregated Series is as long as the columns of the frame. *)
Lemma compute_weighted_length dr tp v n :
  Forall (λ cs, length cs.2 = n) dr →
  compute_weighted_dr_scores dr tp = Ok (Series v) → length v = n.
Proof.
  intros Hcols. unfold compute_weighted_dr_scores. cbv zeta.
  destruct (weighted_terms dr tp) as (vs & -> & Hlen & Hvs). rewrite bind_Ok.
  destruct (decide (vs = [])) as [->|Hne].
  - destruct (valid_weights dr tp); [|done]. by cbv.
  - destruct (py_sum_series_lookup vs n Hne (Hvs n Hcols))
      as (v0 & -> & Hv0 & _).
    destruct (py_sum_scalars (valid_weights dr tp).*2) as (d & -> & _).
    cbn [py_truediv]. intros [= <-]. by rewrite length_fmap.
Qed.

End Aggregation.

(** C6, as amended.  The weighted aggregation raises exactly when no
    column of [dr_scores] is a key of the probability table, and the
    exception is then Python's [ZeroDivisionError], from the integer
    division [0 / 0]. *)
Theorem aggregation_raises_iff (dr_scores : list (string * vector))
    (treatment_prob : gmap string Q) (e : exn) :
  compute_weighted_dr_scores dr_scores treatment_prob = Raise e
  ↔ Forall (λ col, treatment_prob !! col = None) dr_scores.*1
    ∧ e = ZeroDivisionError.
Proof.
  rewrite <-valid_weights_nil. split.
  - destruct (decide (valid_weights dr_scores treatment_prob = []))
      as [Hnil|Hne].
    + unfold compute_weighted_dr_scores. rewrite Hnil. cbv. by intros [= <-].
    + destruct (compute_weighted_returns _ _ Hne) as [v ->]. done.
  - intros [Hnil ->]. unfold compute_weighted_dr_scores. by rewrite Hnil.
Qed.

Lemma aggregation_raises_iff_witness :
  compute_weighted_dr_scores [("B", [1; 1]%Q); ("AB", [2; 2]%Q)]
    (list_to_map [("0", 1 # 2); ("A", 1 # 2)]%Q)
  = Raise ZeroDivisionError.
Proof. apply aggregation_raises_iff. split; [compute_done | done]. Defined.

(** C6, the property as stated, fails: with no with-[k] column in the
    table the denominator is zero and the aggregation raises
    [ZeroDivisionError], not [DegenerateWeightError]; with a with-[k]
    column of weight zero in the table it raises nothing. *)
Lemma aggregation_no_degenerate_weight_error :
  compute_weighted_dr_scores [("B", [1; 1]%Q); ("AB", [2; 2]%Q)]
    (list_to_map [("0", 1 # 2); ("A", 1 # 2)]%Q)
  ≠ Raise DegenerateWeightError
  ∧ returns (compute_weighted_dr_scores [("B", [1; 1]%Q); ("AB", [2; 2]%Q)]
               (list_to_map [("0", 1%Q); ("B", 0%Q)])).
Proof. split; [by vm_compute | by eexists; vm_compute]. Qed.

Section AggregationFormula.

Implicit Types (dr : list (string * vector)) (tp : gmap string Q).

Lemma mapM_fmap {A B D} (f : B → result D) (h : A → B) (l : list A) :
  mapM f (h <$> l) = mapM (f ∘ h) l.
Proof.
  induction l as [|x l IH]; [done|].
  rewrite fmap_cons, !mapM_cons, IH. done.
Qed.

Lemma present_columns_NoDup dr tp :
  NoDup dr.*1 → NoDup (present_columns dr tp).*1.
Proof.
  unfold present_columns. induction dr as [|[col s] dr IH]; [done|].
  rewrite fmap_cons, NoDup_cons, filter_cons. intros [Hcol Hnd].
  case_decide; [|by apply IH]. rewrite fmap_cons. apply NoDup_cons.
  split; [|by apply IH]. intros (cs & Heq & Hin)%list_elem_of_fmap.
  apply Hcol, list_elem_of_fmap. exists cs. split; [done|].
  by apply list_elem_of_filter in Hin as [_ ?].
Qed.

Lemma valid_weights_NoDup dr tp :
  NoDup dr.*1 →
  valid_weights dr tp
  = (λ cs, (cs.1, weight_of tp cs)) <$> present_columns dr tp.
Proof.
  intros Hnd. unfold valid_weights. rewrite omap_weights.
  apply dict_of_NoDup. rewrite <-list_fmap_compose.
  by apply present_columns_NoDup.
Qed.

Lemma np_sum_nonneg (ws : vector) :
  Forall (λ w, 0 <= w)%Q ws → (0 <= np_sum ws)%Q.
Proof.
  induction 1 as [|w ws Hw _ IH]; cbn; [done|].
  change (0 <= w + np_sum ws)%Q. lra.
Qed.

Lemma np_sum_pos (ws : vector) w :
  Forall (λ w, 0 <= w)%Q ws → w ∈ ws → (0 < w)%Q → (0 < np_sum ws)%Q.
Proof.
  intros Hws Hin Hw. induction Hws as [|w' ws Hw' Hws IH].
  - by apply elem_of_nil in Hin.
  - change (0 < w' + np_sum ws)%Q. pose proof (np_sum_nonneg ws Hws).
    apply elem_of_cons in Hin as [<-|Hin]; [lra|]. specialize (IH Hin). lra.
Qed.

End AggregationFormula.

(** C3.  For a frame of per-pair score columns with distinct names and [n]
    units, and a table of non-negative weights that gives a positive
    weight to at least one of the columns, [compute_weighted_dr_scores]
    returns one score per unit; the total weight of the columns present in
    the table is positive, and the score of unit [i] is the sum over
    those columns of [projected_dr_score[w] * P(w)] divided by the sum of
    those [P(w)].  The columns absent from the table enter neither sum. *)
Theorem weighted_scores_formula (dr_scores : list (string * vector))
    (treatment_prob : gmap string Q) (n : nat) :
  NoDup dr_scores.*1 →
  Forall (λ cs, length cs.2 = n) dr_scores →
  (∀ col w, treatment_prob !! col = Some w → (0 <= w)%Q) →
  (∃ col w, col ∈ dr_scores.*1 ∧ treatment_prob !! col = Some w ∧ (0 < w)%Q) →
  ∃ v,
    compute_weighted_dr_scores dr_scores treatment_prob = Ok (Series v)
    ∧ length v = n
    ∧ (0 < weight_total dr_scores treatment_prob)%Q
    ∧ ∀ i, i < n →
        ∃ x, v !! i = Some x
             ∧ (x == weighted_score dr_scores treatment_prob i)%Q.
Proof.
  intros Hnd Hlen Hnonneg (col & w & Hcol & Hw & Hpos).
  set (present := present_columns dr_scores treatment_prob).
  assert (∀ cs, cs ∈ present → cs ∈ dr_scores) as Hsub.
  { intros cs Hcs. by apply list_elem_of_filter in Hcs as [_ ?]. }
  assert (present ≠ []) as Hne.
  { apply list_elem_of_fmap in Hcol as (cs & -> & Hcs).
    assert (cs ∈ present) as Hin; [|by intros Heq; rewrite Heq in Hin;
                                      apply elem_of_nil in Hin].
    apply list_elem_of_filter. by split; [exists w|]. }
  assert (0 < weight_total dr_scores treatment_prob)%Q as Htotal.
  { apply list_elem_of_fmap in Hcol as (cs & -> & Hcs).
    unfold weight_total. apply np_sum_pos with (weight_of treatment_prob cs).
    - apply Forall_fmap, Forall_forall. intros cs' _. unfold weight_of, compose.
      destruct (treatment_prob !! cs'.1) eqn:Hw'; cbn; [by eapply Hnonneg|done].
    - apply list_elem_of_fmap. exists cs. split; [done|].
      apply list_elem_of_filter. by split; [exists w|].
    - unfold weight_of. by rewrite Hw. }
  unfold compute_weighted_dr_scores. cbv zeta.
  rewrite valid_weights_NoDup by done. fold present.
  rewrite mapM_fmap.
  rewrite (mapM_fmap_Ok _
             (λ cs, Series ((λ e, e * weight_of treatment_prob cs)%Q <$> cs.2))).
  2:{ apply Forall_forall. intros [c s] Hcs. unfold compose. cbn [fst snd].
      by rewrite (dict_get_NoDup c s dr_scores Hnd (Hsub _ Hcs)). }
  rewrite bind_Ok.
  assert ((λ cs, Series ((λ e, e * weight_of treatment_prob cs)%Q <$> cs.2))
            <$> present
          = Series <$> ((λ cs, (λ e, e * weight_of treatment_prob cs)%Q <$> cs.2)
                          <$> present)) as ->
    by (by rewrite <-list_fmap_compose).
  destruct (py_sum_series_lookup
              ((λ cs, (λ e, e * weight_of treatment_prob cs)%Q <$> cs.2)
                 <$> present) n) as (v & -> & Hv & Hlook).
  { intros Heq. apply Hne. by apply fmap_nil_inv in Heq. }
  { apply Forall_fmap, Forall_forall. intros cs Hcs. unfold compose.
    rewrite length_fmap. rewrite Forall_forall in Hlen. by apply Hlen, Hsub. }
  assert (((λ cs, (cs.1, weight_of treatment_prob cs)) <$> present).*2
          = weight_of treatment_prob <$> present) as ->
    by (by rewrite <-list_fmap_compose).
  destruct (py_sum_scalars (weight_of treatment_prob <$> present))
    as (d & -> & Hd).
  cbn [py_truediv]. eexists. split; [done|]. split; [by rewrite length_fmap|].
  split; [done|]. intros i Hi. destruct (Hlook i Hi) as (x & Hx & Hval).
  exists (x / d)%Q. split; [by rewrite list_lookup_fmap, Hx|].
  unfold weighted_score, weight_total. fold present.
  rewrite Hval, Hd, <-list_fmap_compose.
  assert ((λ s : vector, default 0%Q (s !! i))
            ∘ (λ cs, (λ e, e * weight_of treatment_prob cs)%Q <$> cs.2)
            <$> present
          = (λ cs, default 0 (cs.2 !! i) * weight_of treatment_prob cs)%Q
            <$> present) as ->; [|reflexivity].
  apply list_fmap_ext. intros j cs Hcs%list_elem_of_lookup_2. unfold compose.
  rewrite list_lookup_fmap. rewrite Forall_forall in Hlen.
  destruct (lookup_lt_is_Some_2 cs.2 i) as [a ->]; [|done].
  by rewrite (Hlen cs (Hsub cs Hcs)).
Qed.

Lemma weighted_scores_formula_witness :
  ∃ v,
    compute_weighted_dr_scores [("A", [1; 5]%Q); ("AB", [3; 7]%Q)]
      (list_to_map [("0", 1 # 2); ("A", 1 # 4); ("B", 1 # 4)]%Q)
    = Ok (Series v)
    ∧ length v = 2.
Proof.
  destruct (weighted_scores_formula [("A", [1; 5]%Q); ("AB", [3; 7]%Q)]
              (list_to_map [("0", 1 # 2); ("A", 1 # 4); ("B", 1 # 4)]%Q) 2)
    as (v & Hrun & Hlen & _).
  - compute_done.
  - by repeat constructor.
  - intros col w Hw. unfold list_to_map in Hw. cbn [foldr fst snd] in Hw.
    repeat (apply lookup_insert_Some in Hw as [[_ <-]|[_ Hw]]; [done|]).
    by rewrite lookup_empty in Hw.
  - exists "A", (1 # 4)%Q. split_and!; [compute_done | done | done].
  - exists v. by split.
Defined.


(** ** Propensity scores *)





(** ** The training frame *)

Section Frames.

Implicit Types (df : DataFrame) (v : vector) (name : string).



Lemma length_drop names df X : drop names df = Ok X → length X = length (rows df).
Proof.
  unfold drop. case_decide; [|done]. intros [= <-]. by rewrite length_fmap.
Qed.






End Frames.




(** ** The loop over the treatments *)

Section Loop.

Implicit Types (body : string → result Q) (l : list string)
  (acc r : gmap string Q).

Lemma loop_cons body k l acc :
  calculate_ate_loop body (k :: l) acc
  = ate ← body k; calculate_ate_loop body l (<[k := ate]> acc).
Proof. done. Qed.

(** What a completed loop has stored. *)
Lemma loop_Ok body l acc r :
  calculate_ate_loop body l acc = Ok r →
  Forall (λ k, returns (body k)) l
  ∧ ∀ k, r !! k = if decide (k ∈ l)
                  then match body k with Ok v => Some v | Raise _ => None end
                  else acc !! k.
Proof.
  revert acc. induction l as [|x l IH]; intros acc.
  - intros [= <-]. split; [constructor|]. intros k.
    rewrite decide_False; [done | by intros ?%elem_of_nil].
  - rewrite loop_cons. intros (v & Hv & Hloop)%bind_Ok_inv.
    destruct (IH _ Hloop) as [Hall Hr]. split.
    { constructor; [by exists v | done]. }
    intros k. rewrite Hr. destruct (decide (k ∈ l)) as [Hin|Hnin].
    + rewrite decide_True; [done | by right].
    + destruct (decide (k = x)) as [->|Hne].
      * rewrite decide_True by (by left). by rewrite lookup_insert_eq, Hv.
      * rewrite decide_False.
        -- by rewrite lookup_insert_ne.
        -- intros [?|?]%elem_of_cons; done.
Qed.

Lemma loop_returns body l acc :
  Forall (λ k, returns (body k)) l → returns (calculate_ate_loop body l acc).
Proof.
  intros Hall. revert acc. induction Hall as [|x l [v Hv] _ IH]; intros acc.
  - by exists acc.
  - rewrite loop_cons, Hv, bind_Ok. apply IH.
Qed.

(** The first treatment that raises ends the loop with its exception. *)
Lemma loop_Raise body pre k post acc e :
  Forall (λ k, returns (body k)) pre → body k = Raise e →
  calculate_ate_loop body (pre ++ k :: post) acc = Raise e.
Proof.
  intros Hpre Hk. revert acc. induction Hpre as [|x l [v Hv] _ IH]; intros acc.
  - cbn [app]. by rewrite loop_cons, Hk.
  - cbn [app]. rewrite loop_cons, Hv, bind_Ok. apply IH.
Qed.

Lemma loop_ext body body' l acc :
  (∀ k, body k = body' k) →
  calculate_ate_loop body l acc = calculate_ate_loop body' l acc.
Proof.
  intros Hext. revert acc. induction l as [|x l IH]; intros acc; [done|].
  rewrite !loop_cons, Hext. destruct (body' x); [apply IH | done].
Qed.

(** The loop result does not depend on the order of the treatments. *)
Lemma loop_Permutation body l l' acc r :
  l ≡ₚ l' → calculate_ate_loop body l acc = Ok r →
  calculate_ate_loop body l' acc = Ok r.
Proof.
  intros Hperm Hrun. destruct (loop_Ok _ _ _ _ Hrun) as [Hall Hr].
  destruct (loop_returns body l' acc) as [r' Hrun'].
  { by rewrite <-Hperm. }
  rewrite Hrun'. f_equal. apply map_eq. intros k.
  destruct (loop_Ok _ _ _ _ Hrun') as [_ Hr']. rewrite Hr, Hr'.
  destruct (decide (k ∈ l)) as [Hin|Hnin].
  - rewrite decide_True; [done | by rewrite <-Hperm].
  - rewrite decide_False; [done | by rewrite <-Hperm].
Qed.

End Loop.

(** C7, as amended.  [calculate_ate] handles no exception: when the
    treatments before [k] in the list are estimated and the estimation of
    [k] raises, [calculate_ate] raises that exception; it returns no
    mapping, the estimates already computed are lost and the treatments
    after [k] are not estimated. *)
Theorem calculate_ate_aborts (clf : Classifier) (reg : Regressor)
    (df_train : DataFrame) (C : list string) (treatment_prob : gmap string Q)
    (pre post : list string) (k : string) (X : matrix) (e : exn) :
  let treatments := pre ++ k :: post in
  let treatment_cols := (λ t, "T" +:+ t) <$> treatments in
  let body :=
    calculate_ate_treatment clf reg df_train C treatment_prob treatment_cols X in
  drop (["y"; "t"] ++ treatment_cols) df_train = Ok X →
  Forall (λ k', returns (body k')) pre →
  body k = Raise e →
  calculate_ate clf reg df_train C treatment_prob treatments = Raise e.
Proof.
  intros treatments treatment_cols body HX Hpre Hk.
  unfold calculate_ate. fold treatments. fold treatment_cols.
  rewrite HX, bind_Ok. by apply loop_Raise.
Qed.

Lemma calculate_ate_aborts_witness :
  calculate_ate Estimators.share_classifier Estimators.mean_regressor
    Estimators.df_small (Enumeration.C ["A"; "B"]) Estimators.prob_partial
    ["A"; "B"] = Raise ZeroDivisionError.
Proof.
  apply (calculate_ate_aborts Estimators.share_classifier
           Estimators.mean_regressor Estimators.df_small
           (Enumeration.C ["A"; "B"]) Estimators.prob_partial
           ["A"] [] "B" Estimators.X_small ZeroDivisionError).
  - reflexivity.
  - constructor; [|constructor]. eexists. vm_compute. reflexivity.
  - vm_compute. reflexivity.
Defined.

(** C7, the property as stated, fails: with the treatments B and A, in
    this order, the estimation of B raises [ZeroDivisionError]; the
    estimation of A alone would succeed, yet [calculate_ate] raises and
    returns no mapping at all. *)
Lemma calculate_ate_no_partial_mapping :
  let body :=
    calculate_ate_treatment Estimators.share_classifier
      Estimators.mean_regressor Estimators.df_small
      (Enumeration.C ["A"; "B"]) Estimators.prob_partial ["TB"; "TA"]
      Estimators.X_small in
  returns (body "A")
  ∧ raises (body "B")
  ∧ ¬ returns (calculate_ate Estimators.share_classifier
                 Estimators.mean_regressor Estimators.df_small
                 (Enumeration.C ["A"; "B"]) Estimators.prob_partial
                 ["B"; "A"]).
Proof.
  split_and!.
  - eexists. vm_compute. reflexivity.
  - eexists. vm_compute. reflexivity.
  - intros [r Hr]. vm_compute in Hr. discriminate Hr.
Qed.

(** ** One treatment *)

Section Treatment.

Variable clf : Classifier.
Variable reg : Regressor.
Implicit Types (df : DataFrame) (X : matrix) (cols : list string).

Lemma calculate_ate_pair_length df cols X w_k s__k v :
  calculate_ate_pair clf reg df cols X w_k s__k = Ok v → length v = length X.
Proof.
  unfold calculate_ate_pair.
  intros (X_treated & _ & H)%bind_Ok_inv.
  apply bind_Ok_inv in H as (y_treated & _ & H).
  apply bind_Ok_inv in H as (T_treated & _ & H).
  apply bind_Ok_inv in H as (ps & _ & H).
  apply bind_Ok_inv in H as (dr_scores & _ & H).
  apply bind_Ok_inv in H as (dr_model & _ & [= <-]).
  apply length_predict.
Qed.

Lemma aggregated_dr_scores_length df C tp cols X k agg :
  aggregated_dr_scores clf reg df C tp cols X k = Ok agg →
  length agg = length X.
Proof.
  unfold aggregated_dr_scores. cbv zeta.
  intros (y_hat_dr_list & Hlist & H)%bind_Ok_inv.
  apply bind_Ok_inv in H as (aggregated & Hagg & Harr).
  destruct aggregated as [q|v]; [done|]. injection Harr as <-.
  eapply compute_weighted_length; [|exact Hagg].
  apply Forall_forall. intros [col s] Hcs%dict_of_elem_of.
  apply elem_of_zip_r in Hcs. cbn [snd].
  apply mapM_Ok_inv in Hlist.
  apply list_elem_of_lookup in Hcs as [i Hi].
  destruct (Forall2_lookup_r _ _ _ _ _ Hlist Hi) as (p & _ & Hp).
  by apply calculate_ate_pair_length in Hp.
Qed.

Lemma aggregated_dr_scores_Ok df C tp cols X k agg :
  aggregated_dr_scores clf reg df C tp cols X k = Ok agg →
  ∃ y_hat_dr_list,
    mapM (λ p, calculate_ate_pair clf reg df cols X p.1 p.2)
      (zip (Enumeration.W_k C k) (Enumeration.S__k C k)) = Ok y_hat_dr_list
    ∧ compute_weighted_dr_scores
        (dict_of (zip (Enumeration.W_k C k) y_hat_dr_list)) tp
      = Ok (Series agg).
Proof.
  unfold aggregated_dr_scores. cbv zeta.
  intros (l & Hl & H)%bind_Ok_inv.
  apply bind_Ok_inv in H as (a & Ha & Harr).
  destruct a as [q|v]; [done|]. injection Harr as <-. by exists l.
Qed.

Lemma calculate_ate_treatment_Ok df C tp cols X k ate :
  calculate_ate_treatment clf reg df C tp cols X k = Ok ate →
  ∃ agg m,
    aggregated_dr_scores clf reg df C tp cols X k = Ok agg
    ∧ lr_fit reg X agg = Ok m
    ∧ ate = np_mean (predict m X).
Proof.
  unfold calculate_ate_treatment.
  intros (agg & Hagg & (m & Hm & [= <-])%bind_Ok_inv)%bind_Ok_inv.
  by exists agg, m.
Qed.

(** The dropped columns matter as a set. *)
Lemma drop_ext names names' df :
  (∀ c, c ∈ names ↔ c ∈ names') → drop names df = drop names' df.
Proof.
  intros Hext. unfold drop.
  assert (Forall (λ c, c = "t" ∨ c ∈ columns df) names
          ↔ Forall (λ c, c = "t" ∨ c ∈ columns df) names') as Hall.
  { rewrite !Forall_forall. split; intros H c Hc; apply H, Hext, Hc. }
  assert ((λ r : Row, (filter (λ p, p.1 ∉ names)
                         (zip (columns df) (cells r))).*2) <$> rows df
          = (λ r : Row, (filter (λ p, p.1 ∉ names')
                           (zip (columns df) (cells r))).*2) <$> rows df)
    as Hrows.
  { apply list_fmap_ext. intros _ r _. f_equal. apply list_filter_iff.
    intros p. by rewrite Hext. }
  rewrite Hrows.
  destruct (decide (Forall _ names)), (decide (Forall _ names')); tauto.
Qed.

Lemma mapM_ext {A B} (f g : A → result B) (l : list A) :
  (∀ x, f x = g x) → mapM f l = mapM g l.
Proof.
  intros Hext. induction l as [|x l IH]; [done|].
  by rewrite !mapM_cons, Hext, IH.
Qed.

Lemma calculate_ate_pair_ext df cols cols' X w_k s__k :
  (∀ c, c ∈ cols ↔ c ∈ cols') →
  calculate_ate_pair clf reg df cols X w_k s__k
  = calculate_ate_pair clf reg df cols' X w_k s__k.
Proof.
  intros Hext. unfold calculate_ate_pair.
  rewrite (drop_ext (_ ++ cols) (["y"; "t"; "t_binary"] ++ cols')); [done|].
  intros c. rewrite !elem_of_app. by rewrite Hext.
Qed.

Lemma calculate_ate_treatment_ext df C tp cols cols' X k :
  (∀ c, c ∈ cols ↔ c ∈ cols') →
  calculate_ate_treatment clf reg df C tp cols X k
  = calculate_ate_treatment clf reg df C tp cols' X k.
Proof.
  intros Hext. unfold calculate_ate_treatment, aggregated_dr_scores.
  cbv zeta. rewrite (mapM_ext _ (λ p, calculate_ate_pair clf reg df cols' X p.1 p.2));
    [done|].
  intros p. by apply calculate_ate_pair_ext.
Qed.

End Treatment.

(** What a returned mapping holds, treatment by treatment. *)
Lemma calculate_ate_Ok (clf : Classifier) (reg : Regressor)
    (df_train : DataFrame) (C : list string) (treatment_prob : gmap string Q)
    (treatments : list string) (results : gmap string Q) :
  calculate_ate clf reg df_train C treatment_prob treatments = Ok results →
  let treatment_cols := (λ t, "T" +:+ t) <$> treatments in
  ∃ X,
    drop (["y"; "t"] ++ treatment_cols) df_train = Ok X
    ∧ length X = length (rows df_train)
    ∧ (∀ k, is_Some (results !! k) ↔ k ∈ treatments)
    ∧ ∀ k, k ∈ treatments →
        ∃ aggregated ate_model,
          aggregated_dr_scores clf reg df_train C treatment_prob
            treatment_cols X k = Ok aggregated
          ∧ length aggregated = length (rows df_train)
          ∧ lr_fit reg X aggregated = Ok ate_model
          ∧ length (predict ate_model X) = length (rows df_train)
          ∧ results !! k = Some (np_mean (predict ate_model X)).
Proof.
  unfold calculate_ate. cbv zeta.
  intros (X & HX & Hloop)%bind_Ok_inv.
  pose proof (length_drop _ _ _ HX) as HlenX.
  destruct (loop_Ok _ _ _ _ Hloop) as [Hall Hr].
  exists X. split_and!; [done..| |].
  - intros k. rewrite Hr. rewrite Forall_forall in Hall.
    destruct (decide (k ∈ treatments)) as [Hin|Hnin].
    + destruct (Hall k Hin) as [v ->]. split; [done | by eexists].
    + rewrite lookup_empty. split; [by intros [? ?] | done].
  - intros k Hin. rewrite Forall_forall in Hall.
    destruct (Hall k Hin) as [ate Hate].
    destruct (calculate_ate_treatment_Ok _ _ _ _ _ _ _ _ _ Hate)
      as (agg & m & Hagg & Hm & ->).
    exists agg, m. split_and!; [done| |done| |].
    + rewrite <-HlenX. by eapply aggregated_dr_scores_length.
    + by rewrite length_predict.
    + by rewrite Hr, decide_True, Hate.
Qed.


(** ** Fitted values and their mean, written out *)

Section FittedValues.

Implicit Types (X : matrix) (m : LinearModel).

Lemma np_sum_cons (a : Q) (v : vector) : np_sum (a :: v) = (a + np_sum v)%Q.
Proof. done. Qed.

Lemma np_sum_total (v : vector) : np_sum v = total v.
Proof.
  induction v as [|x v IH]; [done|].
  rewrite np_sum_cons, IH. done.
Qed.

Lemma dot_linear_combination (row coef : vector) :
  (dot row coef == linear_combination coef row)%Q.
Proof.
  unfold dot. revert coef.
  induction row as [|x row IH]; intros [|c coef]; try reflexivity.
  cbn [zip_with linear_combination]. rewrite np_sum_cons, IH. ring.
Qed.

Lemma np_sum_predict m X :
  (np_sum (predict m X) == total (fitted_value m <$> X))%Q.
Proof.
  induction X as [|row X IH]; [reflexivity|].
  unfold predict in *. rewrite !fmap_cons. cbn [total].
  rewrite np_sum_cons, IH. unfold fitted_value.
  rewrite dot_linear_combination. ring.
Qed.

(** [np.mean(model.predict(X))] is the sum of the fitted values of the
    units divided by their number. *)
Lemma np_mean_predict m X :
  (np_mean (predict m X)
   == total (fitted_value m <$> X) / inject_Z (Z.of_nat (length X)))%Q.
Proof. unfold np_mean. by rewrite np_sum_predict, length_predict. Qed.

Lemma covariates_of_filter names cols (cells : vector) :
  (filter (λ p, p.1 ∉ names) (zip cols cells)).*2
  = covariates_of names cols cells.
Proof.
  revert cells. induction cols as [|c cols IH]; intros [|x cells]; try done.
  cbn [zip_with covariates_of]. rewrite filter_cons. cbn [fst].
  destruct (decide (c ∈ names)) as [Hc|Hc].
  - rewrite decide_False by tauto. apply IH.
  - rewrite decide_True by done. rewrite fmap_cons. cbn [snd]. by rewrite IH.
Qed.

(** What [drop] returns is the matrix of the covariates of every unit. *)
Lemma drop_covariate_matrix names df X :
  drop names df = Ok X → X = covariate_matrix names df.
Proof.
  unfold drop, covariate_matrix. case_decide; [|done]. intros [= <-].
  apply list_fmap_ext. intros _ r _. apply covariates_of_filter.
Qed.

End FittedValues.

(** C8.  When [calculate_ate] returns, the mapping has an entry exactly
    for the labels of the treatment list.  For each treatment [k] the
    pair loop yields the projected scores of the matched pairs of [k],
    [compute_weighted_dr_scores] turns them into one aggregated score
    per unit of the training frame, one regression of these aggregated
    scores is fitted on the covariate matrix of the whole frame (the
    cells of every unit outside the columns [y], [t] and the indicator
    columns), and the entry of [k] is the mean of the fitted values of
    that regression over all units: the sum over the units of
    [intercept + coef_1 * x_1 + ... + coef_p * x_p], divided by the
    number of units. *)
Theorem calculate_ate_entries (clf : Classifier) (reg : Regressor)
    (df_train : DataFrame) (C : list string) (treatment_prob : gmap string Q)
    (treatments : list string) (results : gmap string Q) :
  calculate_ate clf reg df_train C treatment_prob treatments = Ok results →
  let treatment_cols := (λ t, "T" +:+ t) <$> treatments in
  let X := covariate_matrix (["y"; "t"] ++ treatment_cols) df_train in
  length X = length (rows df_train)
  ∧ (∀ k, is_Some (results !! k) ↔ k ∈ treatments)
  ∧ ∀ k, k ∈ treatments →
      ∃ y_hat_dr_list aggregated ate_model ate,
        mapM (λ p, calculate_ate_pair clf reg df_train treatment_cols X
                     p.1 p.2)
          (zip (Enumeration.W_k C k) (Enumeration.S__k C k))
        = Ok y_hat_dr_list
        ∧ compute_weighted_dr_scores
            (dict_of (zip (Enumeration.W_k C k) y_hat_dr_list))
            treatment_prob
          = Ok (Series aggregated)
        ∧ length aggregated = length (rows df_train)
        ∧ lr_fit reg X aggregated = Ok ate_model
        ∧ results !! k = Some ate
        ∧ (ate == total (fitted_value ate_model <$> X)
                  / inject_Z (Z.of_nat (length (rows df_train))))%Q.
Proof.
  intros Hrun treatment_cols X.
  destruct (calculate_ate_Ok _ _ _ _ _ _ _ Hrun)
    as (X' & HX' & HlenX & Hdom & Hentries).
  fold treatment_cols in HX', Hentries.
  pose proof (drop_covariate_matrix _ _ _ HX') as HXeq. fold X in HXeq.
  subst X'. split_and!; [done..|].
  intros k Hk.
  destruct (Hentries k Hk) as (agg & m & Hagg & Hlen & Hfit & _ & Hres).
  destruct (aggregated_dr_scores_Ok _ _ _ _ _ _ _ _ _ Hagg) as (l & Hl & Hcw).
  exists l, agg, m, (np_mean (predict m X)). split_and!; try done.
  rewrite np_mean_predict, HlenX. reflexivity.
Qed.

Lemma calculate_ate_entries_witness :
  ∃ results ate,
    calculate_ate Estimators.share_classifier Heterogeneous.line_regressor
      Heterogeneous.df_line (Enumeration.C ["A"; "B"]) Estimators.prob_small
      ["A"; "B"] = Ok results
    ∧ (∀ k, is_Some (results !! k) ↔ k ∈ ["A"; "B"])
    ∧ results !! "A" = Some ate
    ∧ (ate == total (fitted_value (mkLinear (9 # 4) [1 # 4])
                       <$> Heterogeneous.X_line) / 12)%Q
    ∧ (ate == 5 # 2)%Q.
Proof.
  destruct (calculate_ate Estimators.share_classifier
              Heterogeneous.line_regressor Heterogeneous.df_line
              (Enumeration.C ["A"; "B"]) Estimators.prob_small ["A"; "B"])
    as [results|e] eqn:Hrun; [|by vm_compute in Hrun].
  destruct (calculate_ate_entries _ _ _ _ _ _ _ Hrun) as (_ & Hdom & Hentries).
  destruct (Hentries "A") as (l & agg & m & ate & Hl & Hcw & _ & Hfit & Hres
                              & Hate); [by left|].
  vm_compute in Hl. injection Hl as <-.
  vm_compute in Hcw. injection Hcw as <-.
  vm_compute in Hfit. injection Hfit as <-.
  exists results, ate. split_and!; [done..| |]; rewrite Hate; by vm_compute.
Defined.

(** C9.  Permuting the treatment list, with the frame, the combination
    list and the probability table unchanged, does not change what
    [calculate_ate] returns: the same mapping, hence the same value for
    every treatment label. *)
Theorem calculate_ate_permutation (clf : Classifier) (reg : Regressor)
    (df_train : DataFrame) (C : list string) (treatment_prob : gmap string Q)
    (treatments treatments' : list string) (results : gmap string Q) :
  treatments ≡ₚ treatments' →
  calculate_ate clf reg df_train C treatment_prob treatments = Ok results →
  calculate_ate clf reg df_train C treatment_prob treatments' = Ok results.
Proof.
  intros Hperm. unfold calculate_ate. cbv zeta.
  assert (∀ c, c ∈ (λ t, "T" +:+ t) <$> treatments
               ↔ c ∈ (λ t, "T" +:+ t) <$> treatments') as Hcols.
  { intros c. by rewrite Hperm. }
  rewrite (drop_ext (["y"; "t"] ++ ((λ t, "T" +:+ t) <$> treatments))
             (["y"; "t"] ++ ((λ t, "T" +:+ t) <$> treatments'))).
  2:{ intros c. rewrite !elem_of_app. by rewrite Hcols. }
  intros (X & -> & Hloop)%bind_Ok_inv. rewrite bind_Ok.
  apply (loop_Permutation _ _ _ _ _ Hperm).
  rewrite <-Hloop. apply loop_ext. intros k.
  by apply calculate_ate_treatment_ext.
Qed.

Lemma calculate_ate_permutation_witness :
  ∃ results,
    calculate_ate Estimators.share_classifier Estimators.mean_regressor
      Estimators.df_small (Enumeration.C ["A"; "B"]) Estimators.prob_small
      ["A"; "B"] = Ok results
    ∧ calculate_ate Estimators.share_classifier Estimators.mean_regressor
        Estimators.df_small (Enumeration.C ["A"; "B"]) Estimators.prob_small
        ["B"; "A"] = Ok results.
Proof.
  destruct (calculate_ate Estimators.share_classifier
              Estimators.mean_regressor Estimators.df_small
              (Enumeration.C ["A"; "B"]) Estimators.prob_small ["A"; "B"])
    as [results|e] eqn:Hrun; [|by vm_compute in Hrun].
  exists results. split; [done|].
  apply (calculate_ate_permutation _ _ _ _ _ ["A"; "B"] ["B"; "A"]);
    [apply Permutation_swap | done].
Defined.

(** ** Least squares with an intercept *)

Section LeastSquares.

Implicit Types (X : matrix) (y : vector) (m : LinearModel).

Lemma Qsquare_nonneg (x : Q) : (0 <= x * x)%Q.
Proof.
  destruct (Qlt_le_dec x 0) as [Hneg|Hpos].
  - assert (x * x == (- x) * (- x))%Q as -> by ring.
    apply Qmult_le_0_compat; lra.
  - apply Qmult_le_0_compat; lra.
Qed.

Lemma Qsquare_zero (x : Q) : (x * x <= 0)%Q → (x == 0)%Q.
Proof.
  intros Hsq. destruct (Qlt_le_dec x 0) as [Hneg|Hpos].
  - assert (0 < (- x) * (- x))%Q as H by (apply Qmult_lt_0_compat; lra).
    assert (x * x == (- x) * (- x))%Q as Heq by ring. lra.
  - destruct (Qlt_le_dec 0 x) as [Hlt|Hle]; [|lra].
    assert (0 < x * x)%Q as H by (by apply Qmult_lt_0_compat). lra.
Qed.

Lemma sse_nonneg m X y : (0 <= sse m X y)%Q.
Proof.
  unfold sse. revert y.
  induction X as [|row X IH]; intros [|target y]; cbn [zip_with total];
    try done.
  specialize (IH y).
  pose proof (Qsquare_nonneg (target - fitted_value m row)). lra.
Qed.

Lemma count_succ (n : nat) :
  (inject_Z (Z.of_nat (S n)) == inject_Z (Z.of_nat n) + 1)%Q.
Proof. rewrite Nat2Z.inj_succ, <-Z.add_1_r, inject_Z_plus. reflexivity. Qed.

(** Moving the intercept by [δ] changes the sum of squared errors by
    [- 2 δ S + n δ²], where [S] is the sum of the residuals. *)
Lemma sse_shift (b δ : Q) (coef : vector) X y :
  length X = length y →
  (sse (mkLinear (b + δ) coef) X y
   == sse (mkLinear b coef) X y
      - 2 * δ * (total y - total (fitted_value (mkLinear b coef) <$> X))
      + inject_Z (Z.of_nat (length y)) * δ * δ)%Q.
Proof.
  revert y. induction X as [|row X IH]; intros [|target y] Hlen; try done.
  - cbn. ring.
  - injection Hlen as Hlen. specialize (IH y Hlen).
    unfold sse, fitted_value in *. cbn [intercept_ coef_] in *.
    rewrite !fmap_cons. cbn [zip_with length total].
    rewrite count_succ, IH. ring.
Qed.

(** The residuals of a least-squares fit with an intercept sum to zero:
    the fitted values and the targets have the same sum. *)
Lemma least_squares_sum m X y :
  length X = length y → least_squares_fit m X y →
  (total (fitted_value m <$> X) == total y)%Q.
Proof.
  intros Hlen Hls. destruct m as [b coef].
  set (S := (total y - total (fitted_value (mkLinear b coef) <$> X))%Q).
  set (n := inject_Z (Z.of_nat (length y))).
  destruct (decide (length y = 0)) as [Hy|Hy].
  { apply nil_length_inv in Hy as ->. destruct X; [reflexivity | done]. }
  assert (0 < n)%Q as Hn.
  { unfold n. change 0%Q with (inject_Z 0). rewrite <-Zlt_Qlt. lia. }
  pose proof (Hls (mkLinear (b + S / n) coef)) as Hmin.
  rewrite sse_shift in Hmin by done. fold S in Hmin. fold n in Hmin.
  assert (n * (S / n) == S)%Q as Hdiv by (field; lra).
  assert (S * (S / n) <= 0)%Q as Hneg.
  { assert (n * (S / n) * (S / n) == S * (S / n))%Q as Heq
      by (by rewrite Hdiv).
    lra. }
  assert (S * S <= 0)%Q as Hsq.
  { assert (S * S == n * (S * (S / n)))%Q as -> by (field; lra).
    assert (0 <= n * - (S * (S / n)))%Q
      by (apply Qmult_le_0_compat; lra).
    lra. }
  apply Qsquare_zero in Hsq. unfold S in Hsq. lra.
Qed.

End LeastSquares.

(** The line through three points that do not lie on a line: a
    least-squares fit whose residuals are not zero, and whose fitted
    values have the sum of the targets. *)
Example least_squares_three_points :
  let X := [[0]; [1]; [2]]%Q in
  let y := [1; 0; 2]%Q in
  let m := mkLinear (1 # 2) [1 # 2] in
  lr_fit Heterogeneous.line_regressor X y = Ok m
  ∧ least_squares_fit m X y
  ∧ (sse m X y == 3 # 2)%Q
  ∧ (total (fitted_value m <$> X) == total y)%Q.
Proof.
  intros X y m.
  assert (least_squares_fit m X y) as Hls.
  { intros [b coef].
    assert (sse m X y == 3 # 2)%Q as -> by (by vm_compute).
    unfold sse, fitted_value, X, y.
    cbn [zip_with total intercept_ coef_].
    destruct coef as [|c coef]; cbn [linear_combination].
    - pose proof (Qsquare_nonneg (b - 1)) as Hsq.
      assert ((1 - (b + 0)) * (1 - (b + 0)) + ((0 - (b + 0)) * (0 - (b + 0))
               + ((2 - (b + 0)) * (2 - (b + 0)) + 0))
              == 3 * ((b - 1) * (b - 1)) + 2)%Q as -> by ring.
      lra.
    - pose proof (Qsquare_nonneg (b - (1 # 2))) as H0.
      pose proof (Qsquare_nonneg (b - (1 # 2) + (c - (1 # 2)))) as H1.
      pose proof (Qsquare_nonneg (b - (1 # 2) + 2 * (c - (1 # 2)))) as H2.
      assert ((1 - (b + (c * 0 + 0))) * (1 - (b + (c * 0 + 0)))
               + ((0 - (b + (c * 1 + 0))) * (0 - (b + (c * 1 + 0)))
                  + ((2 - (b + (c * 2 + 0))) * (2 - (b + (c * 2 + 0))) + 0))
              == (3 # 2)
                 + ((b - (1 # 2)) * (b - (1 # 2))
                    + ((b - (1 # 2) + (c - (1 # 2)))
                       * (b - (1 # 2) + (c - (1 # 2)))
                       + (b - (1 # 2) + 2 * (c - (1 # 2)))
                         * (b - (1 # 2) + 2 * (c - (1 # 2))))))%Q
        as -> by ring.
      lra. }
  split_and!; [by vm_compute | done | by vm_compute |].
  by apply least_squares_sum.
Qed.

(** On [df_line] the estimates are 5/2 for A and -1/2 for B. *)
Example calculate_ate_line :
  ∃ results ate_A ate_B,
    calculate_ate Estimators.share_classifier Heterogeneous.line_regressor
      Heterogeneous.df_line (Enumeration.C ["A"; "B"]) Estimators.prob_small
      ["A"; "B"] = Ok results
    ∧ results !! "A" = Some ate_A ∧ (ate_A == 5 # 2)%Q
    ∧ results !! "B" = Some ate_B ∧ (ate_B == - (1 # 2))%Q.
Proof.
  destruct (calculate_ate Estimators.share_classifier
              Heterogeneous.line_regressor Heterogeneous.df_line
              (Enumeration.C ["A"; "B"]) Estimators.prob_small ["A"; "B"])
    as [results|e] eqn:Hrun; [|by vm_compute in Hrun].
  vm_compute in Hrun. injection Hrun as <-.
  do 3 eexists. split_and!; [done | by vm_compute | by vm_compute
                             | by vm_compute | by vm_compute].
Qed.

(** C10, as amended.  In exact arithmetic: when the final regression of
    a treatment is a least-squares fit with an intercept of the
    aggregated scores on the covariate matrix it is then evaluated on,
    the reported ATE is the arithmetic mean of the aggregated scores,
    their sum over the units of the training frame divided by the number
    of units.  (In binary64 the two agree only up to rounding.) *)
Theorem ate_is_mean_of_aggregated (clf : Classifier) (reg : Regressor)
    (df_train : DataFrame) (C : list string) (treatment_prob : gmap string Q)
    (treatments : list string) (results : gmap string Q) (k : string)
    (X : matrix) (aggregated : vector) (ate_model : LinearModel) :
  let treatment_cols := (λ t, "T" +:+ t) <$> treatments in
  calculate_ate clf reg df_train C treatment_prob treatments = Ok results →
  k ∈ treatments →
  drop (["y"; "t"] ++ treatment_cols) df_train = Ok X →
  aggregated_dr_scores clf reg df_train C treatment_prob treatment_cols X k
  = Ok aggregated →
  lr_fit reg X aggregated = Ok ate_model →
  least_squares_fit ate_model X aggregated →
  ∃ ate,
    results !! k = Some ate
    ∧ length aggregated = length (rows df_train)
    ∧ (ate == total aggregated
              / inject_Z (Z.of_nat (length (rows df_train))))%Q.
Proof.
  intros treatment_cols Hrun Hk HX Hagg Hfit Hls.
  destruct (calculate_ate_Ok _ _ _ _ _ _ _ Hrun)
    as (X' & HX' & HlenX & _ & Hentries).
  fold treatment_cols in HX', Hentries. rewrite HX in HX'.
  injection HX' as <-.
  destruct (Hentries k Hk) as (agg' & m' & Hagg' & Hlen & Hfit' & _ & Hres).
  rewrite Hagg in Hagg'. injection Hagg' as <-.
  rewrite Hfit in Hfit'. injection Hfit' as <-.
  exists (np_mean (predict ate_model X)). split_and!; [done..|].
  rewrite np_mean_predict, HlenX.
  rewrite (least_squares_sum ate_model X aggregated); [reflexivity| |done].
  by rewrite HlenX, Hlen.
Qed.

Lemma ate_is_mean_of_aggregated_witness :
  ∃ results aggregated ate a0 a1,
    calculate_ate Estimators.share_classifier Heterogeneous.line_regressor
      Heterogeneous.df_line (Enumeration.C ["A"; "B"]) Estimators.prob_small
      ["A"; "B"] = Ok results
    ∧ aggregated_dr_scores Estimators.share_classifier
        Heterogeneous.line_regressor Heterogeneous.df_line
        (Enumeration.C ["A"; "B"]) Estimators.prob_small ["TA"; "TB"]
        Heterogeneous.X_line "A" = Ok aggregated
    ∧ aggregated !! 0 = Some a0 ∧ aggregated !! 1 = Some a1
    ∧ ¬ (a0 == a1)%Q
    ∧ results !! "A" = Some ate
    ∧ (ate == total aggregated / 12)%Q.
Proof.
  destruct (calculate_ate Estimators.share_classifier
              Heterogeneous.line_regressor Heterogeneous.df_line
              (Enumeration.C ["A"; "B"]) Estimators.prob_small ["A"; "B"])
    as [results|e] eqn:Hrun; [|by vm_compute in Hrun].
  destruct (aggregated_dr_scores Estimators.share_classifier
              Heterogeneous.line_regressor Heterogeneous.df_line
              (Enumeration.C ["A"; "B"]) Estimators.prob_small ["TA"; "TB"]
              Heterogeneous.X_line "A")
    as [aggregated|e] eqn:Hagg; [|by vm_compute in Hagg].
  pose proof Hagg as Hval. vm_compute in Hval. injection Hval as Hval.
  destruct (lr_fit Heterogeneous.line_regressor Heterogeneous.X_line
              aggregated)
    as [ate_model|e] eqn:Hfit; [|subst aggregated; by vm_compute in Hfit].
  destruct (ate_is_mean_of_aggregated Estimators.share_classifier
              Heterogeneous.line_regressor Heterogeneous.df_line
              (Enumeration.C ["A"; "B"]) Estimators.prob_small ["A"; "B"]
              results "A" Heterogeneous.X_line aggregated ate_model)
    as (ate & Hres & _ & Hmean);
    [done | by left | reflexivity | exact Hagg | exact Hfit | |].
  - intros m'. apply Qle_trans with 0%Q; [|apply sse_nonneg].
    subst aggregated. vm_compute in Hfit. injection Hfit as <-.
    by vm_compute.
  - subst aggregated.
    do 5 eexists. split_and!; [done | exact Hagg | done | done | | done | done].
    by vm_compute.
Defined.

(** C10, the property as stated, fails in the floating-point arithmetic
    of the program.  Seven units with zero covariates and the aggregated
    score 0.9: the mean of the aggregated scores is 0.9000000000000001,
    the final regression fits this mean as its intercept, and the mean of
    its seven fitted values, the reported ATE, is 0.9000000000000002. *)
Lemma final_regression_changes_mean_binary64 :
  let X := replicate 7 [0%float] in
  let aggregated := replicate 7 0x1.ccccccccccccdp-1%float in
  Binary64.np_mean aggregated = 0x1.ccccccccccccep-1%float
  ∧ Binary64.predict (Binary64.fit_zero_covariates X aggregated) X
    = replicate 7 0x1.ccccccccccccep-1%float
  ∧ Binary64.final_ate X aggregated = 0x1.ccccccccccccfp-1%float
  ∧ PrimFloat.ltb (Binary64.np_mean aggregated)
      (Binary64.final_ate X aggregated) = true.
Proof. split_and!; by vm_compute. Qed.

(** * Further properties of the notebook's code *)

(** ** The size and the ends of the enumeration *)

Section EnumerationSize.

Import Enumeration.
Context {A : Type}.
Implicit Types (l : list A) (r n : nat).

Lemma combinations_nil r : combinations (@nil A) (S r) = [].
Proof. done. Qed.

Lemma sum_list_fmap_add {B} (f g : B → nat) (rs : list B) :
  sum_list ((λ b, f b + g b) <$> rs)
  = sum_list (f <$> rs) + sum_list (g <$> rs).
Proof. induction rs as [|b rs IH]; cbn; [done|]. rewrite IH. lia. Qed.

(** Summed over enough sizes, the combinations of [l] are [2 ^ length l]. *)
Lemma combinations_total l n :
  length l < n →
  sum_list ((λ r, length (combinations l r)) <$> seq 0 n) = 2 ^ length l.
Proof.
  revert n. induction l as [|x l IH]; intros [|n] Hn; try (cbn in Hn; lia).
  - rewrite <-cons_seq, fmap_cons, <-fmap_S_seq, <-list_fmap_compose.
    cbn [sum_list sum_list_with length combinations].
    induction (seq 0 n) as [|r rs IHr]; [done|]. cbn in *. lia.
  - cbn [length] in *.
    rewrite <-cons_seq, fmap_cons, <-fmap_S_seq, <-list_fmap_compose.
    rewrite combinations_0.
    rewrite (list_fmap_ext _
               (λ r, length (combinations l r) + length (combinations l (S r)))
               (seq 0 n)).
    2:{ intros _ r _. unfold compose.
        by rewrite combinations_cons, length_app, length_fmap. }
    change (sum_list (?a :: ?rs)) with (a + sum_list rs).
    rewrite (sum_list_fmap_add (λ r, length (combinations l r))
               (λ r, length (combinations l (S r)))).
    pose proof (IH (S n) ltac:(lia)) as IH1.
    rewrite <-cons_seq, fmap_cons, <-fmap_S_seq, <-list_fmap_compose in IH1.
    rewrite combinations_0 in IH1.
    change (sum_list (?a :: ?rs)) with (a + sum_list rs) in IH1.
    pose proof (IH n ltac:(lia)) as IH2.
    unfold compose in *. cbn [length] in *.
    rewrite Nat.pow_succ_r'. lia.
Qed.

Lemma length_chain_combinations l :
  length (chain_combinations l) = 2 ^ length l.
Proof.
  unfold chain_combinations.
  rewrite length_join, <-list_fmap_compose. apply combinations_total. lia.
Qed.

End EnumerationSize.

Section EnumerationEnds.

Import Enumeration.
Context {A : Type}.
Implicit Types (l : list A) (r : nat).

Lemma combinations_gt l r : length l < r → combinations l r = [].
Proof.
  revert r. induction l as [|x l IH]; intros [|r] Hr; try (cbn in Hr; lia).
  - done.
  - cbn [length] in Hr.
    rewrite combinations_cons, !IH by lia. done.
Qed.

Lemma combinations_all l : combinations l (length l) = [l].
Proof.
  induction l as [|x l IH]; [done|]. cbn [length].
  rewrite combinations_cons, IH, combinations_gt by lia. done.
Qed.

Lemma chain_combinations_head l :
  ∃ rest, chain_combinations l = [] :: rest.
Proof.
  unfold chain_combinations. rewrite <-cons_seq, fmap_cons, join_cons.
  rewrite combinations_0. by eexists.
Qed.

Lemma chain_combinations_last l :
  ∃ rest, chain_combinations l = rest ++ [l].
Proof.
  unfold chain_combinations.
  rewrite seq_S, fmap_app, join_app. cbn [fmap list_fmap mjoin list_join].
  rewrite Nat.add_0_l, combinations_all, app_nil_r. by eexists.
Qed.

End EnumerationEnds.

Lemma length_C (TREATMENTS : list string) :
  length (Enumeration.C TREATMENTS) = 2 ^ length TREATMENTS.
Proof.
  unfold Enumeration.C, Enumeration.all_combinations.
  by rewrite !length_fmap, length_chain_combinations.
Qed.

(** X1.  For every list of treatment labels, the list [C] has
    [2 ^ len(TREATMENTS)] codes. *)
Theorem enumeration_size (TREATMENTS : list string) :
  length (Enumeration.C TREATMENTS) = 2 ^ length TREATMENTS.
Proof. apply length_C. Qed.

(** X2.  For every list of treatment labels, the first code of [C] is the
    no-treatment code ["0"] and the last one is the code of the
    combination of all the treatments. *)
Theorem enumeration_ends (TREATMENTS : list string) :
  head (Enumeration.C TREATMENTS) = Some "0"
  ∧ last (Enumeration.C TREATMENTS) = Some (Enumeration.code TREATMENTS).
Proof.
  rewrite C_code. split.
  - by destruct (chain_combinations_head TREATMENTS) as [rest ->].
  - destruct (chain_combinations_last TREATMENTS) as [rest ->].
    rewrite fmap_app.
    change (Enumeration.code <$> [TREATMENTS])
      with [Enumeration.code TREATMENTS].
    apply last_snoc.
Qed.

(** X3.  With distinct single-character labels other than ["0"], every
    treatment of a list of [m] labels gets [2 ^ (m - 1)] matched pairs,
    and as many codes with it as without it. *)
Theorem pairs_per_treatment (TREATMENTS : list string) (k : string) :
  plain_labels TREATMENTS → k ∈ TREATMENTS →
  length (Enumeration.matched_pairs (Enumeration.C TREATMENTS) k)
  = 2 ^ (length TREATMENTS - 1)
  ∧ length (Enumeration.W_k (Enumeration.C TREATMENTS) k)
    = 2 ^ (length TREATMENTS - 1)
  ∧ length (Enumeration.S__k (Enumeration.C TREATMENTS) k)
    = 2 ^ (length TREATMENTS - 1).
Proof.
  intros HT Hk. pose proof HT as (Hnd & _ & _).
  pose proof (W_k_code _ _ HT Hk) as HW.
  pose proof (S__k_code _ _ HT Hk) as HS.
  rewrite <-without_chain_combinations, <-list_fmap_compose in HS by done.
  assert (length (Enumeration.W_k (Enumeration.C TREATMENTS) k)
          = length (Enumeration.S__k (Enumeration.C TREATMENTS) k)) as Hlen
    by (by rewrite HW, HS, !length_fmap).
  pose proof (Permutation_length
                (W_S_Permutation (Enumeration.C TREATMENTS) k)) as Hsum.
  rewrite length_app, length_C in Hsum.
  destruct TREATMENTS as [|x T']; [by apply elem_of_nil in Hk|].
  cbn [length] in *. replace (S (length T') - 1) with (length T') by lia.
  rewrite Nat.pow_succ_r' in Hsum.
  unfold Enumeration.matched_pairs. rewrite length_zip. lia.
Qed.

Lemma pairs_per_treatment_witness :
  length (Enumeration.matched_pairs (Enumeration.C ["A"; "B"; "C"]) "C") = 4.
Proof.
  by destruct (pairs_per_treatment ["A"; "B"; "C"] "C") as [-> _];
    [compute_done | compute_done |].
Defined.

(** ** Labelling the units *)

Section Labels.

Import Preparation.
Implicit Types (row : gmap string Q) (label : string).

Lemma getitem_Ok name row v : getitem name row = Ok v ↔ row !! name = Some v.
Proof. unfold getitem. destruct (row !! name); split; congruence. Qed.

Lemma getitem_Raise name row e :
  getitem name row = Raise e ↔ row !! name = None ∧ e = KeyError.
Proof.
  unfold getitem. destruct (row !! name); split; try done.
  - by intros [? _].
  - by intros [= <-].
  - by intros [_ ->].
Qed.

(** The label of a row that has the three indicators. *)
Lemma combine_treatments_Ok row label :
  combine_treatments row = Ok label →
  ∃ TA TB TC,
    row !! "TA" = Some TA ∧ row !! "TB" = Some TB ∧ row !! "TC" = Some TC
    ∧ label
      = match (if Qeq_bool TA 1 then ["A"] else [])
              ++ (if Qeq_bool TB 1 then ["B"] else [])
              ++ (if Qeq_bool TC 1 then ["C"] else []) with
        | [] => "0"
        | treatments => Enumeration.join treatments
        end.
Proof.
  unfold combine_treatments.
  intros (TA & HA%getitem_Ok & H)%bind_Ok_inv.
  apply bind_Ok_inv in H as (TB & HB%getitem_Ok & H).
  apply bind_Ok_inv in H as (TC & HC%getitem_Ok & [= <-]).
  exists TA, TB, TC. split_and!; [done..|].
  by destruct (Qeq_bool TA 1), (Qeq_bool TB 1), (Qeq_bool TC 1).
Qed.

Lemma combine_treatments_C row label :
  combine_treatments row = Ok label →
  label ∈ Enumeration.C ["A"; "B"; "C"].
Proof.
  intros (TA & TB & TC & _ & _ & _ & ->)%combine_treatments_Ok.
  destruct (Qeq_bool TA 1), (Qeq_bool TB 1), (Qeq_bool TC 1); compute_done.
Qed.

End Labels.

(** X4.  A row labelled by [combine_treatments] reads back its three
    indicators through the substring test that [calculate_ate] uses: the
    label contains ["A"] exactly when [TA == 1], and likewise for B and C;
    it is ["0"] exactly when no indicator is 1. *)
Theorem combine_treatments_decode (row : gmap string Q) (label : string) :
  Preparation.combine_treatments row = Ok label →
  ∃ TA TB TC,
    row !! "TA" = Some TA ∧ row !! "TB" = Some TB ∧ row !! "TC" = Some TC
    ∧ Enumeration.py_in "A" label = Qeq_bool TA 1
    ∧ Enumeration.py_in "B" label = Qeq_bool TB 1
    ∧ Enumeration.py_in "C" label = Qeq_bool TC 1
    ∧ (label = "0"
       ↔ Qeq_bool TA 1 = false ∧ Qeq_bool TB 1 = false
         ∧ Qeq_bool TC 1 = false).
Proof.
  intros (TA & TB & TC & HA & HB & HC & ->)%combine_treatments_Ok.
  exists TA, TB, TC. split_and!; [done..| | | |];
    destruct (Qeq_bool TA 1), (Qeq_bool TB 1), (Qeq_bool TC 1);
    try reflexivity; split; (intros [? [? ?]] || intros ?); done.
Qed.

Lemma combine_treatments_decode_witness :
  ∃ TA TB TC : Q,
    ({[ "TA" := 1%Q; "TB" := 0%Q; "TC" := 1%Q ]} : gmap string Q) !! "TA"
    = Some TA
    ∧ Enumeration.py_in "A" "AC" = Qeq_bool TA 1
    ∧ Enumeration.py_in "B" "AC" = Qeq_bool TB 1
    ∧ Enumeration.py_in "C" "AC" = Qeq_bool TC 1.
Proof.
  destruct (combine_treatments_decode
              {[ "TA" := 1%Q; "TB" := 0%Q; "TC" := 1%Q ]} "AC")
    as (TA & TB & TC & HA & _ & _ & H1 & H2 & H3 & _); [by vm_compute|].
  by exists TA, TB, TC.
Defined.

(** X5.  [combine_treatments] raises exactly on a row that lacks one of
    the indicators [TA], [TB], [TC], and the exception is [KeyError]. *)
Theorem combine_treatments_raises_iff (row : gmap string Q) (e : exn) :
  Preparation.combine_treatments row = Raise e
  ↔ (row !! "TA" = None ∨ row !! "TB" = None ∨ row !! "TC" = None)
    ∧ e = KeyError.
Proof.
  unfold Preparation.combine_treatments, Preparation.getitem.
  destruct (row !! "TA"), (row !! "TB"), (row !! "TC"); cbn;
    split; try (intros [= <-]); try (intros [[?|[?|?]] ->]);
    try done; eauto.
Qed.

Lemma combine_treatments_raises_iff_witness :
  Preparation.combine_treatments {[ "TA" := 1%Q; "TC" := 1%Q ]}
  = Raise KeyError.
Proof.
  apply combine_treatments_raises_iff. split; [right; left|]; by vm_compute.
Defined.

(** X6.  When [df.apply(combine_treatments, axis=1)] returns, the frame
    keeps its columns and the cells of every unit, and the label of every
    unit is one of the eight codes of [C] for the treatments A, B, C. *)
Theorem label_rows_codes (df df' : DataFrame) :
  Preparation.label_rows df = Ok df' →
  columns df' = columns df
  ∧ cells <$> rows df' = cells <$> rows df
  ∧ Forall (λ r, t r ∈ Enumeration.C ["A"; "B"; "C"]) (rows df').
Proof.
  unfold Preparation.label_rows.
  intros (labelled & Hmap%mapM_Ok_inv & [= <-])%bind_Ok_inv.
  cbn [columns rows]. split; [done|].
  induction Hmap as [|r r' rs rs' Hr _ [IH1 IH2]]; [done|].
  apply bind_Ok_inv in Hr as (label & Hlabel & [= <-]).
  rewrite !fmap_cons, IH1. cbn [cells]. split; [done|].
  constructor; [|done]. cbn [t]. by eapply combine_treatments_C.
Qed.

Lemma label_rows_codes_witness :
  ∃ df',
    Preparation.label_rows
      (mkFrame ["TA"; "TB"; "TC"; "y"]
         [mkRow [1; 1; 0; 5]%Q ""; mkRow [0; 0; 0; 2]%Q ""]) = Ok df'
    ∧ t <$> rows df' = ["AB"; "0"].
Proof.
  eexists. split; [by vm_compute|].
  by destruct (label_rows_codes
                 (mkFrame ["TA"; "TB"; "TC"; "y"]
                    [mkRow [1; 1; 0; 5]%Q ""; mkRow [0; 0; 0; 2]%Q ""])
                 (mkFrame ["TA"; "TB"; "TC"; "y"]
                    [mkRow [1; 1; 0; 5]%Q "AB"; mkRow [0; 0; 0; 2]%Q "0"]))
    as (_ & _ & _); [by vm_compute|].
Defined.

(** ** The probability table of the training frame *)

Section ValueCounts.

Import Preparation.
Implicit Types (s : list string) (x : string) (counts : gmap string nat).

Lemma value_counts_cons x s :
  value_counts (x :: s)
  = <[x := S (default 0 (value_counts s !! x))]> (value_counts s).
Proof. done. Qed.

(** The count stored for a value is its number of occurrences; values
    that do not occur are no keys. *)
Lemma value_counts_lookup s x :
  value_counts s !! x
  = if decide (x ∈ s) then Some (length (filter (λ y, y = x) s)) else None.
Proof.
  induction s as [|y s IH]; [by rewrite decide_False by apply not_elem_of_nil|].
  rewrite value_counts_cons, filter_cons.
  destruct (decide (y = x)) as [->|Hne].
  - rewrite lookup_insert_eq, decide_True by (by left). rewrite IH.
    case_decide as Hin; cbn [default length]; [done|].
    f_equal. f_equal. symmetry. apply length_zero_iff_nil, filter_none.
    intros z Hz ->. done.
  - rewrite lookup_insert_ne by done. rewrite IH.
    destruct (decide (x ∈ s)) as [Hin|Hnin].
    + rewrite decide_True; [done | by right].
    + rewrite decide_False; [done|]. intros [?|?]%elem_of_cons; done.
Qed.

Lemma counts_sum_insert counts x v :
  counts_sum (<[x := v]> counts) + default 0 (counts !! x)
  = v + counts_sum counts.
Proof.
  unfold counts_sum. destruct (counts !! x) as [c|] eqn:Hx; cbn [default].
  - rewrite <-(insert_delete_id counts x c Hx) at 2.
    rewrite <-insert_delete_eq.
    rewrite !map_to_list_insert by apply lookup_delete_eq.
    cbn. lia.
  - rewrite map_to_list_insert by done. cbn. lia.
Qed.

Lemma counts_sum_value_counts s : counts_sum (value_counts s) = length s.
Proof.
  induction s as [|x s IH]; [done|].
  rewrite value_counts_cons. cbn [length].
  pose proof (counts_sum_insert (value_counts s) x
                (S (default 0 (value_counts s !! x)))). lia.
Qed.

Lemma np_sum_Permutation (u v : vector) : u ≡ₚ v → (np_sum u == np_sum v)%Q.
Proof.
  induction 1 as [|a u v _ IH|a b u|u v w _ IH1 _ IH2].
  - reflexivity.
  - rewrite !np_sum_cons, IH. reflexivity.
  - rewrite !np_sum_cons. ring.
  - by rewrite IH1.
Qed.

Lemma np_sum_shares (cs : list nat) (d : Q) :
  (np_sum ((λ c, inject_Z (Z.of_nat c) / d) <$> cs)
   == inject_Z (Z.of_nat (sum_list cs)) / d)%Q.
Proof.
  induction cs as [|c cs IH].
  - cbn. unfold Qdiv. ring.
  - rewrite fmap_cons, np_sum_cons, IH.
    change (sum_list (c :: cs)) with (c + sum_list cs).
    rewrite Nat2Z.inj_add, inject_Z_plus. unfold Qdiv. ring.
Qed.

Lemma length_filter_fmap {A B} (f : A → B) (P : B → Prop)
    `{!∀ y, Decision (P y)} (l : list A) :
  length (filter P (f <$> l)) = length (filter (λ a, P (f a)) l).
Proof. by rewrite filter_fmap, length_fmap. Qed.

(** The entries of the table of a frame. *)
Lemma treatment_prob_lookup df label :
  treatment_prob df !! label
  = if decide (arm label df = []) then None
    else Some (inject_Z (Z.of_nat (length (arm label df)))
               / inject_Z (Z.of_nat (length (rows df))))%Q.
Proof.
  unfold treatment_prob. cbv zeta.
  rewrite lookup_fmap, value_counts_lookup, counts_sum_value_counts.
  rewrite length_fmap, length_filter_fmap. fold (arm label df).
  destruct (decide (label ∈ t <$> rows df)) as [Hin|Hnin].
  - rewrite decide_False; [done|]. intros Harm.
    apply list_elem_of_fmap in Hin as (r & -> & Hr).
    assert (r ∈ arm (t r) df) as Hmem by (by apply list_elem_of_filter).
    rewrite Harm in Hmem. by apply elem_of_nil in Hmem.
  - rewrite decide_True; [done|]. apply filter_none. intros r Hr <-.
    apply Hnin, list_elem_of_fmap. by exists r.
Qed.

End ValueCounts.

(** X7.  The table [value_counts(normalize=True).to_dict()] of a frame has
    a key exactly for the labels that occur in its column [t], and the
    weight of such a label is the number of units with that label divided
    by the number of units. *)
Theorem treatment_prob_entries (df : DataFrame) (label : string) :
  Preparation.treatment_prob df !! label
  = if decide (arm label df = []) then None
    else Some (inject_Z (Z.of_nat (length (arm label df)))
               / inject_Z (Z.of_nat (length (rows df))))%Q.
Proof. apply treatment_prob_lookup. Qed.

(** X8.  Every weight of the table of a frame is strictly positive and at
    most 1: no key of the table has weight zero. *)
Theorem treatment_prob_positive (df : DataFrame) (label : string) (w : Q) :
  Preparation.treatment_prob df !! label = Some w → (0 < w ∧ w <= 1)%Q.
Proof.
  rewrite treatment_prob_lookup. case_decide as Harm; [done|].
  intros [= <-].
  assert (0 < length (arm label df) ≤ length (rows df)) as [Hpos Hle].
  { split; [by destruct (arm label df); [|cbn; lia]|]. apply length_filter. }
  assert (0 < inject_Z (Z.of_nat (length (rows df))))%Q as Hn.
  { change 0%Q with (inject_Z 0). rewrite <-Zlt_Qlt. lia. }
  split.
  - apply Qlt_shift_div_l; [done|]. rewrite Qmult_0_l.
    change 0%Q with (inject_Z 0). rewrite <-Zlt_Qlt. lia.
  - apply Qle_shift_div_r; [done|]. rewrite Qmult_1_l.
    rewrite <-Zle_Qle. lia.
Qed.

Lemma treatment_prob_positive_witness :
  ∃ w, Preparation.treatment_prob Estimators.df_small !! "AB" = Some w
       ∧ (0 < w ∧ w <= 1)%Q.
Proof.
  eexists. split; [by vm_compute|].
  by apply (treatment_prob_positive Estimators.df_small "AB"); vm_compute.
Defined.

(** X9.  The weights of the table of a non-empty frame sum to 1. *)
Theorem treatment_prob_total (df : DataFrame) :
  rows df ≠ [] → (table_total (Preparation.treatment_prob df) == 1)%Q.
Proof.
  intros Hne. unfold table_total, Preparation.treatment_prob. cbv zeta.
  rewrite map_to_list_fmap, <-list_fmap_compose.
  rewrite (list_fmap_ext _
             ((λ c, inject_Z (Z.of_nat c)
                    / inject_Z (Z.of_nat (Preparation.counts_sum
                        (Preparation.value_counts (t <$> rows df)))))%Q ∘ snd)
             (map_to_list (Preparation.value_counts (t <$> rows df))))
    by (by intros _ [k c] _).
  rewrite list_fmap_compose, np_sum_shares.
  fold (Preparation.counts_sum (Preparation.value_counts (t <$> rows df))).
  rewrite counts_sum_value_counts, length_fmap.
  field. change 0%Q with (inject_Z 0). rewrite inject_Z_injective.
  destruct (rows df); [done | cbn; lia].
Qed.

Lemma treatment_prob_total_witness :
  (table_total (Preparation.treatment_prob Estimators.df_small) == 1)%Q.
Proof. by apply treatment_prob_total. Defined.

(** ** The doubly robust score of a treated and of a control unit *)

(** X10.  On aligned arrays with both outcome models fitted, the score of
    a unit of the with-[k] arm ([T = 1]) is
    [(m1_hat - m0_hat) + (y - m1_hat) / ps] and the score of a unit of the
    other arm ([T = 0]) is [(m1_hat - m0_hat) - (y - m0_hat) / (1 - ps)]:
    the difference of the two outcome predictions, corrected by the
    inverse-propensity-weighted residual of the unit's own arm only. *)
Theorem doubly_robust_scores_by_arm (reg : Regressor) (X : matrix)
    (y T ps : vector) (m0 m1 : LinearModel) (i : nat)
    (yi Ti pi m0_hat m1_hat : Q) :
  length y = length X → length T = length X → length ps = length X →
  lr_fit reg (select ((λ e, Qeq_bool e 0) <$> T) X)
             (select ((λ e, Qeq_bool e 0) <$> T) y) = Ok m0 →
  lr_fit reg (select ((λ e, Qeq_bool e 1) <$> T) X)
             (select ((λ e, Qeq_bool e 1) <$> T) y) = Ok m1 →
  y !! i = Some yi → T !! i = Some Ti → ps !! i = Some pi →
  (0 < pi ∧ pi < 1)%Q →
  predict m0 X !! i = Some m0_hat → predict m1 X !! i = Some m1_hat →
  ∃ scores score,
    calculate_doubly_robust_scores reg X y T ps = Ok scores
    ∧ scores !! i = Some score
    ∧ ((Ti == 1)%Q →
       (score == (m1_hat - m0_hat) + (yi - m1_hat) / pi)%Q)
    ∧ ((Ti == 0)%Q →
       (score == (m1_hat - m0_hat) - (yi - m0_hat) / (1 - pi))%Q).
Proof.
  intros Hy HT Hps Hm0 Hm1 Hyi HTi Hpi [Hlo Hhi] H0 H1.
  unfold calculate_doubly_robust_scores. rewrite Hm0, bind_Ok, Hm1, bind_Ok.
  destruct (doubly_robust_formula_aligned y T ps (predict m0 X) (predict m1 X)
              (length X)) as (scores & -> & _ & Hscore);
    rewrite ?length_predict; try done.
  exists scores. eexists. split; [done|].
  split; [by apply (Hscore i yi Ti pi m0_hat m1_hat)|].
  split; intros ->; field; lra.
Qed.

Lemma doubly_robust_scores_by_arm_witness :
  ∃ scores score,
    calculate_doubly_robust_scores Estimators.mean_regressor
      [[0]; [0]; [0]; [0]]%Q [1; 3; 4; 6]%Q [0; 0; 1; 1]%Q
      [1 # 2; 1 # 2; 1 # 2; 1 # 2]%Q = Ok scores
    ∧ scores !! 2 = Some score
    ∧ (score == 1)%Q.
Proof.
  destruct (doubly_robust_scores_by_arm Estimators.mean_regressor
              [[0]; [0]; [0]; [0]]%Q [1; 3; 4; 6]%Q [0; 0; 1; 1]%Q
              [1 # 2; 1 # 2; 1 # 2; 1 # 2]%Q
              (mkLinear (4 # 2) [0%Q]) (mkLinear (10 # 2) [0%Q])
              2 4%Q 1%Q (1 # 2)%Q (0 + (4 # 2))%Q (0 + (10 # 2))%Q)
    as (scores & score & Hrun & Hi & Htreated & _);
    try reflexivity; [by split|].
  exists scores, score. split_and!; [done..|].
  rewrite Htreated by reflexivity. reflexivity.
Defined.

(** ** The aggregation as a weighted average *)

Section WeightedAverage.

Implicit Types (dr : list (string * vector)) (tp : gmap string Q).

(** The value of the aggregation whenever a column is in the table. *)
Lemma compute_weighted_value dr tp n :
  NoDup dr.*1 → Forall (λ cs, length cs.2 = n) dr →
  present_columns dr tp ≠ [] →
  ∃ v,
    compute_weighted_dr_scores dr tp = Ok (Series v)
    ∧ length v = n
    ∧ ∀ i, i < n →
        ∃ x, v !! i = Some x ∧ (x == weighted_score dr tp i)%Q.
Proof.
  intros Hnd Hlen Hne. set (present := present_columns dr tp) in *.
  assert (∀ cs, cs ∈ present → cs ∈ dr) as Hsub.
  { intros cs Hcs. by apply list_elem_of_filter in Hcs as [_ ?]. }
  unfold compute_weighted_dr_scores. cbv zeta.
  rewrite valid_weights_NoDup by done. fold present. rewrite mapM_fmap.
  rewrite (mapM_fmap_Ok _ (λ cs, Series ((λ e, e * weight_of tp cs)%Q <$> cs.2))).
  2:{ apply Forall_forall. intros [c s] Hcs. unfold compose. cbn [fst snd].
      by rewrite (dict_get_NoDup c s dr Hnd (Hsub _ Hcs)). }
  rewrite bind_Ok.
  assert ((λ cs, Series ((λ e, e * weight_of tp cs)%Q <$> cs.2)) <$> present
          = Series <$> ((λ cs, (λ e, e * weight_of tp cs)%Q <$> cs.2)
                          <$> present)) as ->
    by (by rewrite <-list_fmap_compose).
  destruct (py_sum_series_lookup
              ((λ cs, (λ e, e * weight_of tp cs)%Q <$> cs.2) <$> present) n)
    as (v & -> & Hv & Hlook).
  { intros Heq. apply Hne. by apply fmap_nil_inv in Heq. }
  { apply Forall_fmap, Forall_forall. intros cs Hcs. unfold compose.
    rewrite length_fmap. rewrite Forall_forall in Hlen. by apply Hlen, Hsub. }
  assert (((λ cs, (cs.1, weight_of tp cs)) <$> present).*2
          = weight_of tp <$> present) as ->
    by (by rewrite <-list_fmap_compose).
  destruct (py_sum_scalars (weight_of tp <$> present)) as (d & -> & Hd).
  cbn [py_truediv]. eexists. split; [done|]. split; [by rewrite length_fmap|].
  intros i Hi. destruct (Hlook i Hi) as (x & Hx & Hval).
  exists (x / d)%Q. split; [by rewrite list_lookup_fmap, Hx|].
  unfold weighted_score, weight_total. fold present.
  rewrite Hval, Hd, <-list_fmap_compose.
  assert ((λ s : vector, default 0%Q (s !! i))
            ∘ (λ cs, (λ e, e * weight_of tp cs)%Q <$> cs.2) <$> present
          = (λ cs, default 0 (cs.2 !! i) * weight_of tp cs)%Q <$> present)
    as ->; [|reflexivity].
  apply list_fmap_ext. intros j cs Hcs%list_elem_of_lookup_2. unfold compose.
  rewrite list_lookup_fmap. rewrite Forall_forall in Hlen.
  destruct (lookup_lt_is_Some_2 cs.2 i) as [a ->]; [|done].
  by rewrite (Hlen cs (Hsub cs Hcs)).
Qed.

(** A weighted sum with non-negative weights lies between the least and
    the greatest term times the total weight. *)
Lemma weighted_sum_bounds {A} (a w : A → Q) (lo hi : Q) (L : list A) :
  Forall (λ c, 0 <= w c ∧ lo <= a c ∧ a c <= hi)%Q L →
  (lo * np_sum (w <$> L) <= np_sum ((λ c, a c * w c) <$> L)
   ∧ np_sum ((λ c, a c * w c) <$> L) <= hi * np_sum (w <$> L))%Q.
Proof.
  induction 1 as [|c L (Hw & Hlo & Hhi) _ [IHlo IHhi]].
  - cbn. lra.
  - rewrite !fmap_cons, !np_sum_cons.
    assert (0 <= (a c - lo) * w c)%Q by (apply Qmult_le_0_compat; lra).
    assert (0 <= (hi - a c) * w c)%Q by (apply Qmult_le_0_compat; lra).
    lra.
Qed.

Lemma np_sum_scaled {A} (a w : A → Q) (c : Q) (L : list A) :
  (np_sum ((λ x, a x * (c * w x)) <$> L)
   == c * np_sum ((λ x, a x * w x) <$> L))%Q.
Proof.
  induction L as [|x L IH]; [cbn; ring|].
  rewrite !fmap_cons, !np_sum_cons, IH. ring.
Qed.

Lemma np_sum_scale {A} (w : A → Q) (c : Q) (L : list A) :
  (np_sum ((λ x, c * w x) <$> L) == c * np_sum (w <$> L))%Q.
Proof.
  induction L as [|x L IH]; [cbn; ring|].
  rewrite !fmap_cons, !np_sum_cons, IH. ring.
Qed.

Lemma present_columns_scale dr tp c :
  present_columns dr (scale_table c tp) = present_columns dr tp.
Proof.
  unfold present_columns, scale_table. apply list_filter_iff. intros cs.
  by rewrite lookup_fmap, fmap_is_Some.
Qed.

Lemma weight_of_scale dr tp c cs :
  cs ∈ present_columns dr tp →
  weight_of (scale_table c tp) cs = (c * weight_of tp cs)%Q.
Proof.
  intros [[w Hw] _]%list_elem_of_filter. unfold weight_of, scale_table.
  by rewrite lookup_fmap, Hw.
Qed.

Lemma weighted_score_scale dr tp c i :
  ¬ (c == 0)%Q → ¬ (weight_total dr tp == 0)%Q →
  (weighted_score dr (scale_table c tp) i == weighted_score dr tp i)%Q.
Proof.
  intros Hc Htotal. unfold weighted_score, weight_total in *.
  rewrite present_columns_scale.
  rewrite (list_fmap_ext
             (λ cs, default 0 (cs.2 !! i) * weight_of (scale_table c tp) cs)%Q
             (λ cs, default 0 (cs.2 !! i) * (c * weight_of tp cs))%Q
             (present_columns dr tp)).
  2:{ intros j cs Hcs%list_elem_of_lookup_2.
      by rewrite (weight_of_scale dr tp c cs Hcs). }
  rewrite (list_fmap_ext (weight_of (scale_table c tp))
             (λ cs, c * weight_of tp cs)%Q (present_columns dr tp)).
  2:{ intros j cs Hcs%list_elem_of_lookup_2.
      by rewrite (weight_of_scale dr tp c cs Hcs). }
  rewrite np_sum_scaled, np_sum_scale.
  field. by split.
Qed.

End WeightedAverage.

(** X11.  In exact arithmetic the aggregated score is a weighted
    average: with non-negative weights, one of them positive on a column
    of the frame, the aggregated score of a unit lies between the least
    and the greatest score that the columns present in the table give
    this unit.  (In floating point the bounds hold only up to rounding.) *)
Theorem weighted_scores_bounded (dr_scores : list (string * vector))
    (treatment_prob : gmap string Q) (n i : nat) (lo hi : Q) :
  NoDup dr_scores.*1 →
  Forall (λ cs, length cs.2 = n) dr_scores →
  (∀ col w, treatment_prob !! col = Some w → (0 <= w)%Q) →
  (∃ col w, col ∈ dr_scores.*1 ∧ treatment_prob !! col = Some w ∧ (0 < w)%Q) →
  i < n →
  (∀ cs x, cs ∈ present_columns dr_scores treatment_prob →
           cs.2 !! i = Some x → (lo <= x ∧ x <= hi)%Q) →
  ∃ v x,
    compute_weighted_dr_scores dr_scores treatment_prob = Ok (Series v)
    ∧ v !! i = Some x
    ∧ (lo <= x ∧ x <= hi)%Q.
Proof.
  intros Hnd Hlen Hnonneg (col & w & Hcol & Hw & Hpos) Hi Hrange.
  apply list_elem_of_fmap in Hcol as (cs0 & -> & Hcs0).
  assert (cs0 ∈ present_columns dr_scores treatment_prob) as Hin0.
  { apply list_elem_of_filter. by split; [exists w|]. }
  assert (Forall (λ cs, 0 <= weight_of treatment_prob cs)%Q
            (present_columns dr_scores treatment_prob)) as Hws.
  { apply Forall_forall. intros cs _. unfold weight_of.
    destruct (treatment_prob !! cs.1) eqn:Hc; cbn; [by eapply Hnonneg|done]. }
  assert (0 < weight_total dr_scores treatment_prob)%Q as Htotal.
  { unfold weight_total. apply np_sum_pos with (weight_of treatment_prob cs0).
    - by apply Forall_fmap.
    - apply list_elem_of_fmap. by exists cs0.
    - unfold weight_of. by rewrite Hw. }
  destruct (compute_weighted_value dr_scores treatment_prob n Hnd Hlen)
    as (v & Hrun & _ & Hval).
  { intros Heq. rewrite Heq in Hin0. by apply elem_of_nil in Hin0. }
  destruct (Hval i Hi) as (x & Hx & Heq).
  exists v, x. split_and!; [done..| |]; rewrite Heq; unfold weighted_score.
  all: destruct (weighted_sum_bounds
                   (λ cs : string * vector, default 0%Q (cs.2 !! i))
                   (weight_of treatment_prob) lo hi
                   (present_columns dr_scores treatment_prob))
         as [Hlo Hhi].
  1,3: (apply Forall_forall; intros cs Hcs;
        rewrite Forall_forall in Hws, Hlen;
        assert (cs ∈ dr_scores) as Hmem
          by (by apply list_elem_of_filter in Hcs as [_ ?]);
        destruct (lookup_lt_is_Some_2 cs.2 i) as [a Ha];
          [by rewrite (Hlen cs Hmem)|];
        rewrite Ha; cbn [default];
        destruct (Hrange cs a Hcs Ha); split_and!; [by apply Hws|done..]).
  - apply Qle_shift_div_l; [done|]. exact Hlo.
  - apply Qle_shift_div_r; [done|]. exact Hhi.
Qed.

Lemma weighted_scores_bounded_witness :
  ∃ v x,
    compute_weighted_dr_scores [("A", [1; 5]%Q); ("AB", [3; 7]%Q)]
      (list_to_map [("A", 1 # 4); ("AB", 3 # 4)]%Q) = Ok (Series v)
    ∧ v !! 0 = Some x
    ∧ (1 <= x ∧ x <= 3)%Q.
Proof.
  apply (weighted_scores_bounded [("A", [1; 5]%Q); ("AB", [3; 7]%Q)]
           (list_to_map [("A", 1 # 4); ("AB", 3 # 4)]%Q) 2 0 1%Q 3%Q).
  - compute_done.
  - by repeat constructor.
  - intros col w Hw. unfold list_to_map in Hw. cbn [foldr fst snd] in Hw.
    repeat (apply lookup_insert_Some in Hw as [[_ <-]|[_ Hw]]; [done|]).
    by rewrite lookup_empty in Hw.
  - exists "A", (1 # 4)%Q. split_and!; [compute_done | done | done].
  - lia.
  - intros cs x Hcs Hx. vm_compute in Hcs.
    apply elem_of_cons in Hcs as [->|Hcs];
      [|apply list_elem_of_singleton in Hcs as ->];
      injection Hx as <-; by split.
Defined.

(** X12.  Multiplying every weight of the table by the same nonzero
    number does not change the aggregated scores (up to rational
    equality): the table may hold counts as well as frequencies. *)
Theorem weighted_scores_scale_invariant (dr_scores : list (string * vector))
    (treatment_prob : gmap string Q) (n : nat) (c : Q) :
  NoDup dr_scores.*1 →
  Forall (λ cs, length cs.2 = n) dr_scores →
  ¬ (c == 0)%Q →
  ¬ (weight_total dr_scores treatment_prob == 0)%Q →
  ∃ v v',
    compute_weighted_dr_scores dr_scores treatment_prob = Ok (Series v)
    ∧ compute_weighted_dr_scores dr_scores (scale_table c treatment_prob)
      = Ok (Series v')
    ∧ Forall2 Qeq v v'.
Proof.
  intros Hnd Hlen Hc Htotal.
  assert (present_columns dr_scores treatment_prob ≠ []) as Hne.
  { intros Heq. apply Htotal. unfold weight_total. by rewrite Heq. }
  destruct (compute_weighted_value dr_scores treatment_prob n Hnd Hlen Hne)
    as (v & Hrun & Hv & Hval).
  destruct (compute_weighted_value dr_scores (scale_table c treatment_prob)
              n Hnd Hlen) as (v' & Hrun' & Hv' & Hval').
  { by rewrite present_columns_scale. }
  exists v, v'. split_and!; [done..|].
  apply Forall2_same_length_lookup. split; [congruence|].
  intros i x x' Hx Hx'.
  assert (i < n) as Hi by (apply lookup_lt_Some in Hx; lia).
  destruct (Hval i Hi) as (y & Hy & Heq).
  destruct (Hval' i Hi) as (y' & Hy' & Heq').
  rewrite Hx in Hy. injection Hy as <-. rewrite Hx' in Hy'. injection Hy' as <-.
  by rewrite Heq, Heq', weighted_score_scale.
Qed.

Lemma weighted_scores_scale_invariant_witness :
  ∃ v v',
    compute_weighted_dr_scores [("A", [1; 5]%Q); ("AB", [3; 7]%Q)]
      (list_to_map [("A", 1 # 4); ("AB", 3 # 4)]%Q) = Ok (Series v)
    ∧ compute_weighted_dr_scores [("A", [1; 5]%Q); ("AB", [3; 7]%Q)]
        (scale_table 8 (list_to_map [("A", 1 # 4); ("AB", 3 # 4)]%Q))
      = Ok (Series v')
    ∧ Forall2 Qeq v v'.
Proof.
  apply (weighted_scores_scale_invariant
           [("A", [1; 5]%Q); ("AB", [3; 7]%Q)]
           (list_to_map [("A", 1 # 4); ("AB", 3 # 4)]%Q) 2 8%Q).
  - compute_done.
  - by repeat constructor.
  - by vm_compute.
  - by vm_compute.
Defined.

(** ** Edge behaviour of [calculate_ate] *)

Section AteEdges.

Variable clf : Classifier.
Variable reg : Regressor.
Implicit Types (df : DataFrame) (C : list string) (tp : gmap string Q).

Lemma drop_Ok_iff names df :
  returns (drop names df) ↔ Forall (λ c, c = "t" ∨ c ∈ columns df) names.
Proof.
  unfold drop. case_decide; split; try done.
  - by eexists.
  - by intros [? ?].
Qed.

(** A treatment without a matched pair has no column to aggregate. *)
Lemma calculate_ate_treatment_no_pairs df C tp cols X k :
  Enumeration.W_k C k = [] ∨ Enumeration.S__k C k = [] →
  calculate_ate_treatment clf reg df C tp cols X k = Raise ZeroDivisionError.
Proof.
  intros Hempty. unfold calculate_ate_treatment, aggregated_dr_scores.
  cbv zeta.
  assert (zip (Enumeration.W_k C k) (Enumeration.S__k C k) = []) as ->.
  { destruct Hempty as [->| ->]; [done|]. by destruct (Enumeration.W_k C k). }
  cbn [mapM]. rewrite bind_Ok.
  assert (zip (Enumeration.W_k C k) (@nil vector) = []) as ->
    by (by destruct (Enumeration.W_k C k)).
  done.
Qed.

(** The loop over treatments with the same labels gives the same mapping. *)
Lemma loop_same_labels (body : string → result Q) (l l' : list string)
    (acc r : gmap string Q) :
  (∀ k, k ∈ l ↔ k ∈ l') → calculate_ate_loop body l acc = Ok r →
  calculate_ate_loop body l' acc = Ok r.
Proof.
  intros Hsame Hrun. destruct (loop_Ok _ _ _ _ Hrun) as [Hall Hr].
  destruct (loop_returns body l' acc) as [r' Hrun'].
  { rewrite Forall_forall in *. intros k Hk. by apply Hall, Hsame. }
  rewrite Hrun'. f_equal. apply map_eq. intros k.
  destruct (loop_Ok _ _ _ _ Hrun') as [_ Hr']. rewrite Hr, Hr'.
  destruct (decide (k ∈ l)) as [Hin|Hnin].
  - rewrite decide_True; [done | by apply Hsame].
  - rewrite decide_False; [done | by rewrite <-Hsame].
Qed.

End AteEdges.

(** X13.  When the frame lacks the column [y] or the indicator column
    [T<k>] of one of the treatments, [calculate_ate] raises [KeyError]
    before any model is fitted, whatever the estimators are. *)
Theorem calculate_ate_missing_column (clf : Classifier) (reg : Regressor)
    (df_train : DataFrame) (C : list string) (treatment_prob : gmap string Q)
    (treatments : list string) :
  "y" ∉ columns df_train
  ∨ (∃ k, k ∈ treatments ∧ "T" +:+ k ∉ columns df_train) →
  calculate_ate clf reg df_train C treatment_prob treatments = Raise KeyError.
Proof.
  intros Hmissing. unfold calculate_ate, drop. cbv zeta.
  rewrite decide_False; [done|]. rewrite Forall_forall. intros Hall.
  destruct Hmissing as [Hy|(k & Hk & HTk)].
  - destruct (Hall "y") as [?|?]; [by left|done..].
  - destruct (Hall ("T" +:+ k)) as [?|?]; [|done..].
    do 2 right. apply list_elem_of_fmap. by exists k.
Qed.

Lemma calculate_ate_missing_column_witness :
  calculate_ate Estimators.share_classifier Estimators.mean_regressor
    Estimators.df_small (Enumeration.C ["A"; "B"; "C"]) Estimators.prob_small
    ["A"; "B"; "C"] = Raise KeyError.
Proof.
  apply calculate_ate_missing_column. right. exists "C".
  split; compute_done.
Defined.

(** X14.  A treatment that has no matched pair, because no code of [C]
    contains its label or every code does, makes its estimation raise
    [ZeroDivisionError], and [calculate_ate] returns no mapping for a
    treatment list that holds it. *)
Theorem calculate_ate_no_pairs (clf : Classifier) (reg : Regressor)
    (df_train : DataFrame) (C : list string) (treatment_prob : gmap string Q)
    (treatments treatment_cols : list string) (X : matrix) (k : string) :
  Enumeration.W_k C k = [] ∨ Enumeration.S__k C k = [] →
  k ∈ treatments →
  calculate_ate_treatment clf reg df_train C treatment_prob treatment_cols X k
  = Raise ZeroDivisionError
  ∧ raises (calculate_ate clf reg df_train C treatment_prob treatments).
Proof.
  intros Hempty Hk. split; [by apply calculate_ate_treatment_no_pairs|].
  destruct (calculate_ate clf reg df_train C treatment_prob treatments)
    as [results|e] eqn:Hrun; [|by exists e].
  unfold calculate_ate in Hrun. cbv zeta in Hrun.
  apply bind_Ok_inv in Hrun as (X' & _ & Hloop).
  apply loop_Ok in Hloop as [Hall _]. rewrite Forall_forall in Hall.
  destruct (Hall k Hk) as [ate Hate].
  by rewrite calculate_ate_treatment_no_pairs in Hate.
Qed.

Lemma calculate_ate_no_pairs_witness :
  raises (calculate_ate Estimators.share_classifier Estimators.mean_regressor
            Estimators.df_small ["0"; "A"] Estimators.prob_small ["A"; "B"]).
Proof.
  apply (calculate_ate_no_pairs Estimators.share_classifier
           Estimators.mean_regressor Estimators.df_small ["0"; "A"]
           Estimators.prob_small ["A"; "B"] [] [] "B").
  - left. reflexivity.
  - compute_done.
Defined.

(** X15.  [calculate_ate] depends on the treatment list only through the
    set of its labels: two lists with the same labels, in any order and
    with any repetitions, give the same mapping. *)
Theorem calculate_ate_same_labels (clf : Classifier) (reg : Regressor)
    (df_train : DataFrame) (C : list string) (treatment_prob : gmap string Q)
    (treatments treatments' : list string) (results : gmap string Q) :
  (∀ k, k ∈ treatments ↔ k ∈ treatments') →
  calculate_ate clf reg df_train C treatment_prob treatments = Ok results →
  calculate_ate clf reg df_train C treatment_prob treatments' = Ok results.
Proof.
  intros Hsame. unfold calculate_ate. cbv zeta.
  assert (∀ c, c ∈ (λ t, "T" +:+ t) <$> treatments
               ↔ c ∈ (λ t, "T" +:+ t) <$> treatments') as Hcols.
  { intros c. rewrite !list_elem_of_fmap.
    split; intros (k & -> & Hk); exists k; split; try done; by apply Hsame. }
  rewrite (drop_ext (["y"; "t"] ++ ((λ t, "T" +:+ t) <$> treatments))
             (["y"; "t"] ++ ((λ t, "T" +:+ t) <$> treatments'))).
  2:{ intros c. rewrite !elem_of_app. by rewrite Hcols. }
  intros (X & -> & Hloop)%bind_Ok_inv. rewrite bind_Ok.
  apply (loop_same_labels _ treatments treatments' _ _ Hsame).
  rewrite <-Hloop. apply loop_ext. intros k.
  by apply calculate_ate_treatment_ext.
Qed.

Lemma calculate_ate_same_labels_witness :
  ∃ results,
    calculate_ate Estimators.share_classifier Estimators.mean_regressor
      Estimators.df_small (Enumeration.C ["A"; "B"]) Estimators.prob_small
      ["A"; "B"] = Ok results
    ∧ calculate_ate Estimators.share_classifier Estimators.mean_regressor
        Estimators.df_small (Enumeration.C ["A"; "B"]) Estimators.prob_small
        ["B"; "A"; "B"] = Ok results.
Proof.
  destruct (calculate_ate Estimators.share_classifier
              Estimators.mean_regressor Estimators.df_small
              (Enumeration.C ["A"; "B"]) Estimators.prob_small ["A"; "B"])
    as [results|e] eqn:Hrun; [|by vm_compute in Hrun].
  exists results. split; [done|].
  apply (calculate_ate_same_labels _ _ _ _ _ ["A"; "B"] ["B"; "A"; "B"]);
    [|done].
  intros k. rewrite !elem_of_cons, !elem_of_nil. tauto.
Defined.

(** ** The units of a matched pair *)

Section PairUnits.

Implicit Types (df : DataFrame) (w_k s__k : string).

(** Selecting with the mask of a predicate is filtering by it. *)
Lemma select_mask {A R} (P : R → Prop) `{!∀ r, Decision (P r)}
    (mask : R → bool) (f : R → A) (l : list R) :
  (∀ r, mask r = true ↔ P r) →
  select (mask <$> l) (f <$> l) = f <$> filter P l.
Proof.
  intros Hmask. unfold select. induction l as [|r l IH]; [done|].
  rewrite !fmap_cons. cbn [zip zip_with]. rewrite !filter_cons. cbn [fst].
  destruct (decide (P r)) as [HP|HP].
  - rewrite decide_True by (by apply Hmask). rewrite !fmap_cons.
    cbn [snd]. by rewrite <-IH.
  - rewrite decide_False by (by rewrite Hmask). done.
Qed.

Lemma column_index_None name df :
  name ∉ columns df → column_index name df = None.
Proof.
  intros Hname. unfold column_index.
  assert (list_find (λ c, c = name) (columns df) = None) as ->; [|done].
  apply list_find_None, Forall_forall. by intros c Hc ->.
Qed.

(** The rows of the pair's frame once the fresh column is set: the cell
    of the indicator is appended to the cells of each unit. *)
Lemma set_column_fresh name w_k df :
  name ∉ columns df →
  set_column name (t_indicator w_k df) df
  = mkFrame (columns df ++ [name])
      ((λ r, mkRow (cells r ++ [if decide (t r = w_k) then 1%Q else 0%Q])
               (t r)) <$> rows df).
Proof.
  intros Hname. unfold set_column. rewrite column_index_None by done.
  f_equal. unfold t_indicator. by rewrite zip_with_fmap_r, zip_with_diag.
Qed.

End PairUnits.

(** X16.  On a well-formed frame without a column [t_binary], the
    covariates [X_treated] on which the models of a pair are fitted are
    the rows of the full covariate matrix [X] of the units whose
    combination is [w_k] or [s__k], in the order of the frame. *)
Theorem pair_covariates_restrict (df_train : DataFrame)
    (treatment_cols : list string) (X : matrix) (w_k s__k : string) :
  frame_ok df_train → "t_binary" ∉ columns df_train →
  drop (["y"; "t"] ++ treatment_cols) df_train = Ok X →
  let df_subset := query w_k s__k df_train in
  let df_subset :=
    set_column "t_binary" (t_indicator w_k df_subset) df_subset in
  drop (["y"; "t"; "t_binary"] ++ treatment_cols) df_subset
  = Ok (select ((λ r, bool_decide (t r = w_k ∨ t r = s__k))
                  <$> rows df_train) X).
Proof.
  intros Hok Hfresh HX. cbv zeta.
  rewrite set_column_fresh by done. unfold drop in *.
  case_decide as Hnames; [|done]. injection HX as <-.
  cbn [columns rows]. rewrite decide_True.
  2:{ rewrite Forall_forall in *. intros c Hc. rewrite elem_of_app.
      destruct (decide (c = "t_binary")) as [->|Hnb];
        [right; right; by left|].
      destruct (Hnames c) as [?|?]; [|by left|right; by left].
      cbn in *. rewrite !elem_of_cons in *. intuition congruence. }
  f_equal.
  rewrite (select_mask (λ r, t r = w_k ∨ t r = s__k)) by
    (intros r; apply bool_decide_eq_true).
  rewrite <-list_fmap_compose. apply list_fmap_ext.
  intros _ r Hr%list_elem_of_lookup_2. unfold compose. cbn [cells].
  apply list_elem_of_filter in Hr as [_ Hr].
  unfold frame_ok in Hok. rewrite Forall_forall in Hok.
  rewrite zip_with_app by (by rewrite (Hok r Hr)).
  rewrite filter_app. cbn [zip_with].
  rewrite (filter_none _ [_]).
  2:{ intros p ->%list_elem_of_singleton Hp. apply Hp. cbn.
      do 2 right. by left. }
  rewrite app_nil_r. f_equal. apply filter_ext_elem_of.
  intros [c x] Hcx. apply elem_of_zip_l in Hcx. cbn [fst].
  assert (c ≠ "t_binary") as Hne by (by intros ->).
  cbn. rewrite !elem_of_cons. intuition congruence.
Qed.

Lemma pair_covariates_restrict_witness :
  drop ["y"; "t"; "t_binary"; "TA"; "TB"]
    (set_column "t_binary"
       (t_indicator "A" (query "A" "0" Estimators.df_small))
       (query "A" "0" Estimators.df_small))
  = Ok (select ((λ r, bool_decide (t r = "A" ∨ t r = "0"))
                  <$> rows Estimators.df_small) Estimators.X_small).
Proof.
  apply (pair_covariates_restrict Estimators.df_small ["TA"; "TB"]
           Estimators.X_small "A" "0").
  - by repeat constructor.
  - compute_done.
  - reflexivity.
Defined.

(** X17.  For a pair of two different codes, the outcome model of the
    with-[k] arm is fitted on exactly the units whose combination is
    [w_k] and the model of the other arm on exactly the units whose
    combination is [s__k]: the masks [T == 1] and [T == 0] of the pair's
    indicator select these units from any per-unit array of the pair. *)
Theorem arm_selection {A : Type} (df_train : DataFrame) (w_k s__k : string)
    (f : Row → A) :
  w_k ≠ s__k →
  let df_subset := query w_k s__k df_train in
  let T_treated := t_indicator w_k df_subset in
  select ((λ e, Qeq_bool e 1) <$> T_treated) (f <$> rows df_subset)
  = f <$> arm w_k df_train
  ∧ select ((λ e, Qeq_bool e 0) <$> T_treated) (f <$> rows df_subset)
    = f <$> arm s__k df_train.
Proof.
  intros Hne. cbv zeta. unfold t_indicator, arm, query. cbn [rows].
  rewrite <-!list_fmap_compose. split.
  - rewrite (select_mask (λ r, t r = w_k)).
    2:{ intros r. unfold compose. by case_decide. }
    rewrite list_filter_filter. f_equal. apply list_filter_iff. tauto.
  - rewrite (select_mask (λ r, t r ≠ w_k)).
    2:{ intros r. unfold compose. by case_decide. }
    rewrite list_filter_filter. f_equal. apply list_filter_iff.
    intros r. split; [tauto|]. intros ->. split; [done | by right].
Qed.

Lemma arm_selection_witness :
  select ((λ e, Qeq_bool e 1)
            <$> t_indicator "A" (query "A" "0" Estimators.df_small))
    (cells <$> rows (query "A" "0" Estimators.df_small))
  = cells <$> arm "A" Estimators.df_small.
Proof. by apply (arm_selection Estimators.df_small "A" "0" cells). Defined.
